(** * mh-orange/cmd: processes, the fan-out writer and the test double

    A shallow embedding of [cmd.go] and of the [multiWriter] it relies on.
    Go values are modelled as follows:
    - [int] results of [Write] are [Z]; [len(p)] is [Z.of_nat (length p)];
    - an [error] is [option error], [None] being [nil];
    - an [io.Writer] registered with a [multiWriter] is a [Writer]: its
      behaviour is a function of the calls it has received so far, and the
      calls themselves are recorded, so that "sink k was handed buffer p" and
      "sink k was not touched" are statements about its record;
    - the calls of a [multiWriter] are serialised by its mutex: each of
      them is one atomic transition on the list of writers;
    - the operating system (os/exec) is an oracle giving the result of each
      primitive. *)

From Stdlib Require Import List ZArith Lia Bool Relations.
From Stdlib.Strings Require Import String Byte.
Import ListNotations.
Open Scope Z_scope.

(** ** Bytes and errors *)

Definition bytes := list byte.

Definition len {A} (p : list A) : Z := Z.of_nat (List.length p).

(** The error values the code can see: the two sentinels of package [io]
    that the sources name, the one [io.Copy] makes up, and any other. *)
Inductive error : Type :=
| EOF
| ErrShortWrite
| errInvalidWrite
| ErrOther (msg : string).

Definition error_eqb (a b : error) : bool :=
  match a, b with
  | EOF, EOF => true
  | ErrShortWrite, ErrShortWrite => true
  | errInvalidWrite, errInvalidWrite => true
  | ErrOther x, ErrOther y => String.eqb x y
  | _, _ => false
  end.

(** ** Sinks: values behind [io.Writer] (and possibly [io.Closer]) *)

Inductive call : Type :=
| CWrite (p : bytes)
| CClose.

Record Writer : Type := mkWriter {
  (** what [Write(p)] returns, given the calls made before *)
  on_write : list call -> bytes -> Z * option error;
  (** [Some f] when the value also implements [io.Closer]; [f] is what
      [Close()] returns, given the calls made before *)
  on_close : option (list call -> option error);
  (** the calls received so far, oldest first *)
  calls : list call
}.

Definition record_call (w : Writer) (c : call) : Writer :=
  mkWriter (on_write w) (on_close w) (calls w ++ [c]).

(** [writer.Write(p)] *)
Definition Writer_Write (w : Writer) (p : bytes) : Writer * (Z * option error) :=
  (record_call w (CWrite p), on_write w (calls w) p).

(** The payloads of the [Write] calls a sink has received, in order. *)
Fixpoint written (cs : list call) : list bytes :=
  match cs with
  | [] => []
  | CWrite p :: cs' => p :: written cs'
  | CClose :: cs' => written cs'
  end.

Fixpoint close_count (cs : list call) : nat :=
  match cs with
  | [] => O
  | CWrite _ :: cs' => close_count cs'
  | CClose :: cs' => S (close_count cs')
  end.

(** The writers of io_test.go, and [bytes.Buffer]. *)
Module TestWriters.

(** [errWriter]: [Write] returns [0, io.EOF] whatever it is given. *)
Definition errWriter : Writer :=
  mkWriter (fun _ _ => (0, Some EOF)) None [].

(** [shortWriter]: [Write(data)] returns [len(data) - 1, nil]. *)
Definition shortWriter : Writer :=
  mkWriter (fun _ data => (len data - 1, None)) None [].

(** [closeWriter]: accepts everything, [Close] returns [io.EOF]. *)
Definition closeWriter : Writer :=
  mkWriter (fun _ data => (len data, None)) (Some (fun _ => Some EOF)) [].

(** [bytes.NewBuffer(nil)]: accepts everything, is no [io.Closer]. *)
Definition NewBuffer : Writer :=
  mkWriter (fun _ data => (len data, None)) None [].

(** [Bytes()] of a [bytes.Buffer]: everything written, concatenated. *)
Definition Bytes (w : Writer) : bytes := List.concat (written (calls w)).

End TestWriters.

(** ** multiWriter *)

Record multiWriter : Type := mkMultiWriter {
  writers : list Writer
}.

(** [&multiWriter{}] *)
Definition emptyMultiWriter : multiWriter := mkMultiWriter [].

(** [multiWriter.add(writer)] *)
Definition add (mw : multiWriter) (writer : Writer) : multiWriter :=
  mkMultiWriter (writers mw ++ [writer]).

(** The loop of [Write] over [mw.writers]. *)
Fixpoint Write_loop (ws : list Writer) (p : bytes)
  : list Writer * (Z * option error) :=
  match ws with
  | [] => ([], (len p, None))
  | writer :: rest =>
      let '(writer', (n, err)) := Writer_Write writer p in
      match err with
      | Some e => (writer' :: rest, (n, Some e))
      | None =>
          if negb (n =? len p)
          then (writer' :: rest, (n, Some ErrShortWrite))
          else let '(rest', r) := Write_loop rest p in (writer' :: rest', r)
      end
  end.

(** [multiWriter.Write(p)], returning [(n, err)] *)
Definition Write (mw : multiWriter) (p : bytes) : multiWriter * (Z * option error) :=
  let '(ws, r) := Write_loop (writers mw) p in (mkMultiWriter ws, r).

(** The loop of [close] over [mw.writers]; [err] is the named result,
    [nil] on entry. *)
Fixpoint close_loop (ws : list Writer) : list Writer * option error :=
  match ws with
  | [] => ([], None)
  | writer :: rest =>
      match on_close writer with
      | Some closer =>
          let err := closer (calls writer) in
          let writer' := record_call writer CClose in
          match err with
          | Some e => (writer' :: rest, Some e)
          | None => let '(rest', r) := close_loop rest in (writer' :: rest', r)
          end
      | None => let '(rest', r) := close_loop rest in (writer :: rest', r)
      end
  end.

(** [multiWriter.close()] *)
Definition close (mw : multiWriter) : multiWriter * option error :=
  let '(ws, r) := close_loop (writers mw) in (mkMultiWriter ws, r).

(** [multiWriter.Close()] *)
Definition Close (mw : multiWriter) : multiWriter * option error := close mw.

(** ** Sources and [io.Copy] *)

(** An [io.Reader] is the sequence of results its [Read] calls give, a
    chunk and an error each; once the sequence is used up [Read] gives
    [0, io.EOF]. *)
Record Reader : Type := mkReader {
  reads : list (bytes * option error)
}.

(** What [io.Copy] does once a [Read] has returned [er] and the chunk, if
    any, has been written: stop on an error, which is reported unless it is
    [io.EOF], or go on. *)
Definition after_Read {S : Type} (er : option error) (written : Z) (st : S)
    (continue : S * (Z * option error)) : S * (Z * option error) :=
  match er with
  | Some e => (st, (written, if error_eqb e EOF then None else Some e))
  | None => continue
  end.

(** The loop of [io.Copy(mw, reader)], as Go's [io.copyBuffer] runs it for
    a destination without [ReadFrom], which a [multiWriter] is: read a
    chunk, write it if it is not empty, stop at the first error. *)
Fixpoint io_Copy_loop (dst : multiWriter) (src : list (bytes * option error))
    (written : Z) : multiWriter * (Z * option error) :=
  match src with
  | [] => (dst, (written, None))
  | (chunk, er) :: rest =>
      let nr := len chunk in
      if 0 <? nr then
        let '(dst', (nw0, ew0)) := Write dst chunk in
        let invalid := (nw0 <? 0) || (nr <? nw0) in
        let nw := if invalid then 0 else nw0 in
        let ew := if invalid
                  then match ew0 with None => Some errInvalidWrite | Some e => Some e end
                  else ew0 in
        let written := written + nw in
        match ew with
        | Some e => (dst', (written, Some e))
        | None =>
            if negb (nr =? nw)
            then (dst', (written, Some ErrShortWrite))
            else after_Read er written dst' (io_Copy_loop dst' rest written)
        end
      else after_Read er written dst (io_Copy_loop dst rest written)
  end.

Definition io_Copy (dst : multiWriter) (src : Reader) : multiWriter * (Z * option error) :=
  io_Copy_loop dst (reads src) 0.

(** [multiWriter.copy(reader)]: the result of [io.Copy] is dropped. *)
Definition copy (mw : multiWriter) (reader : Reader) : multiWriter * option error :=
  let '(mw', _) := io_Copy mw reader in
  close mw'.

(** ** os/exec, as far as cmd.go uses it *)

Inductive result (A : Type) : Type :=
| Ok (a : A)
| Err (e : error).
Arguments Ok {A} a.
Arguments Err {A} e.

(** A call either returns or dereferences a nil pointer. *)
Inductive outcome (A : Type) : Type :=
| Ret (a : A)
| Panic.
Arguments Ret {A} a.
Arguments Panic {A}.

Record OsProcess : Type := mkOsProcess { Pid : Z }.

(** [exec.Cmd] *)
Record Cmd : Type := mkCmd {
  Path : string;
  Args : list string;
  Stdin : option Reader;
  Process : option OsProcess
}.

(** [exec.Command(name, arg...)]: [Args] holds the command itself as
    [Args[0]], then the arguments; [Process] is nil until [Start]
    succeeds. *)
Definition exec_Command (name : string) (arg : list string) : Cmd :=
  mkCmd name (name :: arg) None None.

(** The results of the operating system's primitives. *)
Record OS : Type := mkOS {
  os_StderrPipe : Cmd -> result Reader;
  os_StdoutPipe : Cmd -> result Reader;
  os_Start : Cmd -> result OsProcess;
  os_Kill : OsProcess -> option error;
  os_Wait : Cmd -> option error
}.

Inductive stream : Type := OutStream | ErrStream.

(** What [Start] sets in motion, in order: goroutines running
    [copy] on a pipe, and the call of [exec.Cmd.Start] with its argv. *)
Inductive effect : Type :=
| GoCopy (s : stream) (pipe : Reader)
| Spawn (argv : list string).

(** ** The real process and its command *)
Module Real.

Record process : Type := mkProcess {
  cmd : Cmd;
  stderr : multiWriter;
  stdout : multiWriter;
  args : list string
}.

Definition set_cmd (proc : process) (c : Cmd) : process :=
  mkProcess c (stderr proc) (stdout proc) (args proc).

(** [proc.args = append(proc.args, args...)] *)
Definition AppendArgs (proc : process) (more : list string) : process :=
  mkProcess (cmd proc) (stderr proc) (stdout proc) (args proc ++ more).

(** [cmd.Start()] of os/exec: sets [Process] when it succeeds. *)
Definition exec_Start (os : OS) (c : Cmd) : Cmd * option error :=
  match os_Start os c with
  | Ok h => (mkCmd (Path c) (Args c) (Stdin c) (Some h), None)
  | Err e => (c, Some e)
  end.

(** [proc.cmd.Args = append(proc.cmd.Args, proc.args...)], the first
    statement of [Start]. *)
Definition finalize_args (proc : process) : process :=
  set_cmd proc (mkCmd (Path (cmd proc)) (Args (cmd proc) ++ args proc)
                      (Stdin (cmd proc)) (Process (cmd proc))).

(** [process.Start()]. The two [if err == nil] blocks of the source
    are the two matches on [err]. *)
Definition Start (os : OS) (proc : process) : process * list effect * option error :=
  let proc := finalize_args proc in
  let '(effs, err) :=
    match os_StderrPipe os (cmd proc) with
    | Ok stderr_pipe =>
        let effs := [GoCopy ErrStream stderr_pipe] in
        match os_StdoutPipe os (cmd proc) with
        | Ok stdout_pipe => (effs ++ [GoCopy OutStream stdout_pipe], None)
        | Err e => (effs, Some e)
        end
    | Err e => ([], Some e)
    end in
  match err with
  | None =>
      let '(c', err') := exec_Start os (cmd proc) in
      (set_cmd proc c', effs ++ [Spawn (Args (cmd proc))], err')
  | Some e => (proc, effs, Some e)
  end.

(** [proc.cmd.Process.Kill()]: [proc.cmd.Process] is dereferenced. *)
Definition Kill (os : OS) (proc : process) : outcome (option error) :=
  match Process (cmd proc) with
  | Some h => Ret (os_Kill os h)
  | None => Panic
  end.

Definition Wait (os : OS) (proc : process) : option error :=
  os_Wait os (cmd proc).

Definition Stdin (proc : process) (reader : Reader) : process :=
  set_cmd proc (mkCmd (Path (cmd proc)) (Args (cmd proc)) (Some reader)
                      (Process (cmd proc))).

Definition Stderr (proc : process) (writer : Writer) : process :=
  mkProcess (cmd proc) (add (stderr proc) writer) (stdout proc) (args proc).

Definition Stdout (proc : process) (writer : Writer) : process :=
  mkProcess (cmd proc) (stderr proc) (add (stdout proc) writer) (args proc).

(** The struct [cmd] of the source: a path and the base arguments. *)
Record command : Type := mkCommand {
  path : string;
  base_args : list string
}.

Definition New (p : string) (a : list string) : command := mkCommand p a.

Definition SetPath (c : command) (p : string) : command :=
  mkCommand p (base_args c).

(** [cmd.Process()]: every field but [cmd] has its zero value. *)
Definition Process (c : command) : process :=
  mkProcess (exec_Command (path c) (base_args c))
            emptyMultiWriter emptyMultiWriter [].

End Real.

(** ** The test double *)

(** The struct [TestCmd]. *)
Module TestCmd.

Record t : Type := mk {
  Stdout : bytes;
  Stderr : bytes;
  StartErr : option error;
  WaitErr : option error;
  KillErr : option error
}.

End TestCmd.

(** [testProcess] and the goroutines of its [Start]. *)
Module Double.

Record testProcess : Type := mkTestProcess {
  stdinReader : option Reader;
  stdout : bytes;
  stdoutWriter : multiWriter;
  stderr : bytes;
  stderrWriter : multiWriter;
  (** the counter of the [sync.WaitGroup] *)
  wg : Z;
  startErr : option error;
  waitErr : option error;
  killErr : option error
}.

(** [TestCmd.Process()] *)
Definition Process (tc : TestCmd.t) : testProcess :=
  mkTestProcess None (TestCmd.Stdout tc) emptyMultiWriter
                (TestCmd.Stderr tc) emptyMultiWriter
                0 (TestCmd.StartErr tc) (TestCmd.WaitErr tc) (TestCmd.KillErr tc).

Definition AppendArgs (tp : testProcess) (more : list string) : testProcess := tp.

Definition Kill (tp : testProcess) : option error := killErr tp.

Definition Stdin (tp : testProcess) (reader : Reader) : testProcess :=
  mkTestProcess (Some reader) (stdout tp) (stdoutWriter tp) (stderr tp)
                (stderrWriter tp) (wg tp) (startErr tp) (waitErr tp) (killErr tp).

(** [tp.Stdout(writer)] *)
Definition Stdout (tp : testProcess) (writer : Writer) : testProcess :=
  mkTestProcess (stdinReader tp) (stdout tp) (add (stdoutWriter tp) writer)
                (stderr tp) (stderrWriter tp) (wg tp)
                (startErr tp) (waitErr tp) (killErr tp).

(** [tp.Stderr(writer)] *)
Definition Stderr (tp : testProcess) (writer : Writer) : testProcess :=
  mkTestProcess (stdinReader tp) (stdout tp) (stdoutWriter tp)
                (stderr tp) (add (stderrWriter tp) writer) (wg tp)
                (startErr tp) (waitErr tp) (killErr tp).

Definition data (s : stream) (tp : testProcess) : bytes :=
  match s with OutStream => stdout tp | ErrStream => stderr tp end.

Definition writer (s : stream) (tp : testProcess) : multiWriter :=
  match s with OutStream => stdoutWriter tp | ErrStream => stderrWriter tp end.

Definition set_writer (s : stream) (tp : testProcess) (mw : multiWriter) : testProcess :=
  match s with
  | OutStream =>
      mkTestProcess (stdinReader tp) (stdout tp) mw (stderr tp) (stderrWriter tp)
                    (wg tp) (startErr tp) (waitErr tp) (killErr tp)
  | ErrStream =>
      mkTestProcess (stdinReader tp) (stdout tp) (stdoutWriter tp) (stderr tp) mw
                    (wg tp) (startErr tp) (waitErr tp) (killErr tp)
  end.

Definition set_wg (tp : testProcess) (n : Z) : testProcess :=
  mkTestProcess (stdinReader tp) (stdout tp) (stdoutWriter tp) (stderr tp)
                (stderrWriter tp) n (startErr tp) (waitErr tp) (killErr tp).

(** Where a goroutine of [Start] stands: before its [Write], before its
    [Close], before [wg.Done()], or returned. *)
Inductive pc : Type := AtWrite | AtClose | AtDone | Finished.

(** One statement of the goroutine that [Start] launches for stream [s]
    (the two closures of the source differ in the stream only). [Write]
    and [Close] run under the mutex of the [multiWriter], so each is one
    step; their results are dropped. *)
Definition task_step (s : stream) (at_ : pc) (tp : testProcess)
  : option (testProcess * pc) :=
  match at_ with
  | AtWrite =>
      if 0 <? len (data s tp)
      then Some (set_writer s tp (fst (Write (writer s tp) (data s tp))), AtClose)
      else Some (tp, AtClose)
  | AtClose => Some (set_writer s tp (fst (Close (writer s tp))), AtDone)
  | AtDone => Some (set_wg tp (wg tp - 1), Finished)
  | Finished => None
  end.

(** The process together with the goroutines launched for it. *)
Record world : Type := mkWorld {
  tp : testProcess;
  tasks : list (stream * pc)
}.

(** A process nothing has been started on. *)
Definition idle (p : testProcess) : world := mkWorld p [].

(** [testProcess.Start()] *)
Definition Start (w : world) : world * option error :=
  match startErr (tp w) with
  | None =>
      (mkWorld (set_wg (tp w) (wg (tp w) + 2))
               (tasks w ++ [(OutStream, AtWrite); (ErrStream, AtWrite)]),
       startErr (tp w))
  | Some _ => (w, startErr (tp w))
  end.

(** [testProcess.Wait()]: [tp.wg.Wait()] returns once the counter is
    zero; [None] stands for a caller that is still blocked. *)
Definition Wait (w : world) : option (option error) :=
  if wg (tp w) =? 0 then Some (waitErr (tp w)) else None.

Fixpoint set_nth {A} (i : nat) (x : A) (l : list A) : list A :=
  match l, i with
  | [], _ => []
  | _ :: l', O => x :: l'
  | y :: l', S i' => y :: set_nth i' x l'
  end.

(** The scheduler lets goroutine number [i] run one statement. *)
Definition sched (i : nat) (w : world) : option world :=
  match nth_error (tasks w) i with
  | Some (s, at_) =>
      match task_step s at_ (tp w) with
      | Some (tp', at') => Some (mkWorld tp' (set_nth i (s, at') (tasks w)))
      | None => None
      end
  | None => None
  end.

Definition step (w w' : world) : Prop := exists i, sched i w = Some w'.

(** Any interleaving of the goroutines. *)
Definition steps : world -> world -> Prop := clos_refl_trans_1n world step.

(** Running a given schedule. *)
Fixpoint run (schedule : list nat) (w : world) : option world :=
  match schedule with
  | [] => Some w
  | i :: rest =>
      match sched i w with
      | Some w' => run rest w'
      | None => None
      end
  end.

Definition all_finished (w : world) : Prop :=
  Forall (fun t => snd t = Finished) (tasks w).

End Double.

(** ** Vocabulary of the statements *)

(** Sink [w], as it stands, takes the whole of [p] and reports no error. *)
Definition accepts (p : bytes) (w : Writer) : Prop :=
  on_write w (calls w) p = (len p, None).

(** Sink [w] after it has been handed [p]. *)
Definition delivered (p : bytes) (w : Writer) : Writer := record_call w (CWrite p).

(** Sink [w] has no closing capability, or its [Close] now returns nil. *)
Definition closes_ok (w : Writer) : Prop :=
  match on_close w with
  | Some closer => closer (calls w) = None
  | None => True
  end.

(** Sink [w] after [close] has passed it: closed when it can be. *)
Definition closed (w : Writer) : Writer :=
  match on_close w with
  | Some _ => record_call w CClose
  | None => w
  end.

(** A sink that takes whatever it is given, whenever. *)
Definition always_accepts (w : Writer) : Prop :=
  forall history p, on_write w history p = (len p, None).

(** A sink whose [Close], if it has one, never fails. *)
Definition never_fails_close (w : Writer) : Prop :=
  match on_close w with
  | Some closer => forall history, closer history = None
  | None => True
  end.

(** The chunks [io.Copy] hands to the writer: the non-empty ones, up to
    and including the one that came with the first error. *)
Fixpoint forwarded (src : list (bytes * option error)) : list bytes :=
  match src with
  | [] => []
  | (chunk, er) :: rest =>
      (if 0 <? len chunk then [chunk] else []) ++
      match er with
      | Some _ => []
      | None => forwarded rest
      end
  end.

Definition deliver_all (chunks : list bytes) (w : Writer) : Writer :=
  fold_left (fun s p => delivered p s) chunks w.

(** Recording a call changes what a sink has seen, not how it behaves. *)
Definition same_behaviour (w w' : Writer) : Prop :=
  on_write w = on_write w' /\ on_close w = on_close w'.

(** [effs] contains a call of the spawn primitive. *)
Definition spawned (effs : list effect) : bool :=
  existsb (fun ef => match ef with Spawn _ => true | GoCopy _ _ => false end) effs.

(** ** Concrete inputs *)
Module Examples.
Import TestWriters.

Definition hello_world : bytes := list_byte_of_string "hello world!".
Definition hello : bytes := list_byte_of_string "hello".
Definition world : bytes := list_byte_of_string "world".

(** A pipe that yields two bytes and then breaks. *)
Definition broken_pipe : Reader :=
  mkReader [(list_byte_of_string "ab", None);
            ([], Some (ErrOther "read |0: file already closed"))].

Definition one_buffer : multiWriter := add emptyMultiWriter NewBuffer.

Definition some_pipe : Reader := mkReader [(hello, None)].

(** An operating system on which the error pipe can be had, the output
    pipe cannot, and a spawn would succeed. *)
Definition os_no_stdout_pipe : OS :=
  mkOS (fun _ => Ok some_pipe)
       (fun _ => Err (ErrOther "exec: Stdout already set"))
       (fun _ => Ok (mkOsProcess 4242))
       (fun _ => None)
       (fun _ => None).

(** An operating system on which everything succeeds, except that the
    process has finished by the time it is killed. *)
Definition os_fine : OS :=
  mkOS (fun _ => Ok some_pipe)
       (fun _ => Ok some_pipe)
       (fun _ => Ok (mkOsProcess 4242))
       (fun _ => Some (ErrOther "os: process already finished"))
       (fun _ => None).

Definition ls : Real.command := Real.New "ls" ["-l"%string].

End Examples.

(** ** Vocabulary for the test double *)

(** Calling [Stdout] for each sink of [outs], then [Stderr] for each sink
    of [errs]. *)
Definition register_all (outs errs : list Writer) (p : Double.testProcess)
  : Double.testProcess :=
  fold_left Double.Stderr errs (fold_left Double.Stdout outs p).

(** A sink that takes whatever it is given and cannot be closed, as a
    [bytes.Buffer] is. *)
Definition buffer_like (w : Writer) : Prop :=
  always_accepts w /\ on_close w = None.

(** The sinks of a stream once its goroutine stands at [at_]: handed the
    data when the goroutine is past its [Write] and there was data. *)
Definition sinks_at (at_ : Double.pc) (data : bytes) (ws : list Writer) : list Writer :=
  match at_ with
  | Double.AtWrite => ws
  | _ => if 0 <? len data then map (delivered data) ws else ws
  end.

(** What a goroutine at [at_] still owes the wait group. *)
Definition pending (at_ : Double.pc) : Z :=
  match at_ with
  | Double.Finished => 0
  | _ => 1
  end.

Definition next (at_ : Double.pc) : Double.pc :=
  match at_ with
  | Double.AtWrite => Double.AtClose
  | Double.AtClose => Double.AtDone
  | _ => Double.Finished
  end.

(** The world in which a started process with data [out], [err] and sinks
    [outs], [errs] has its two goroutines at [a] and [b]. *)
Definition world_at (out err : bytes) (outs errs : list Writer)
    (waitE killE : option error) (a b : Double.pc) : Double.world :=
  Double.mkWorld
    (Double.mkTestProcess None
       out (mkMultiWriter (sinks_at a out outs))
       err (mkMultiWriter (sinks_at b err errs))
       (pending a + pending b) None waitE killE)
    [(OutStream, a); (ErrStream, b)].

(** ** [process.String] *)

(** [strings.IndexAny(s, chars)] for [chars] within ASCII: the index of
    the first byte of [s] that is one of [chars], or -1. *)
Fixpoint IndexAny_from (i : Z) (s : string) (chars : list Ascii.ascii) : Z :=
  match s with
  | EmptyString => -1
  | String c s' =>
      if existsb (Ascii.eqb c) chars then i else IndexAny_from (i + 1) s' chars
  end.

Definition IndexAny (s : string) (chars : list Ascii.ascii) : Z :=
  IndexAny_from 0 s chars.

(** The characters of [" \t\n\r"]. *)
Definition blanks : list Ascii.ascii :=
  [Ascii.Space; Ascii.ascii_of_nat 9; Ascii.ascii_of_nat 10; Ascii.ascii_of_nat 13].

(** The body of the loop of [String]: [quote] stands for
    [fmt.Sprintf("%q", arg)]. *)
Definition String_arg (quote : string -> string) (arg : string) : string :=
  if 0 <=? IndexAny arg blanks then quote arg else arg.

(** The loop of [String] over its range, [args] being the slice it
    appends to. *)
Fixpoint String_loop (quote : string -> string) (range : list string)
    (args : list string) : list string :=
  match range with
  | [] => args
  | arg :: rest => String_loop quote rest (args ++ [String_arg quote arg])
  end.

(** [process.String()] *)
Definition process_String (quote : string -> string) (proc : Real.process) : string :=
  String.concat " "
    (String_loop quote (Args (Real.cmd proc) ++ Real.args proc) []).

(** ** Vocabulary for the further properties *)

(** What the loop of [String] yields with nothing to quote. *)
Definition plain (arg : string) : Prop := IndexAny arg blanks < 0.

(** One thing that can happen to a test process: a goroutine takes a
    statement, or [Start] is called (again). *)
Definition move (w w' : Double.world) : Prop :=
  Double.step w w' \/ w' = fst (Double.Start w).

Definition evolves : Double.world -> Double.world -> Prop :=
  clos_refl_trans_1n Double.world move.

(** The goroutines that have not called [wg.Done()] yet. *)
Fixpoint unfinished (ts : list (stream * Double.pc)) : Z :=
  match ts with
  | [] => 0
  | (_, Double.Finished) :: ts' => unfinished ts'
  | _ :: ts' => 1 + unfinished ts'
  end.

Definition statements_left (at_ : Double.pc) : nat :=
  match at_ with
  | Double.AtWrite => 3
  | Double.AtClose => 2
  | Double.AtDone => 1
  | Double.Finished => 0
  end.

Fixpoint remaining (ts : list (stream * Double.pc)) : nat :=
  match ts with
  | [] => 0
  | (_, at_) :: ts' => statements_left at_ + remaining ts'
  end.

(** The broadcaster of a stream with data [data] once its goroutine
    stands at [at_], whatever its sinks are. *)
Definition writer_at (at_ : Double.pc) (data : bytes) (mw : multiWriter) : multiWriter :=
  let after_write := if 0 <? len data then fst (Write mw data) else mw in
  match at_ with
  | Double.AtWrite => mw
  | Double.AtClose => after_write
  | _ => fst (Close after_write)
  end.

(** The world in which process [p], started once from rest, has its two
    goroutines at [a] and [b]. *)
Definition world_of (p : Double.testProcess) (a b : Double.pc) : Double.world :=
  Double.mkWorld
    (Double.mkTestProcess (Double.stdinReader p)
       (Double.stdout p) (writer_at a (Double.stdout p) (Double.stdoutWriter p))
       (Double.stderr p) (writer_at b (Double.stderr p) (Double.stderrWriter p))
       (pending a + pending b)
       (Double.startErr p) (Double.waitErr p) (Double.killErr p))
    [(OutStream, a); (ErrStream, b)].

(** Two sinks have been handed the same payloads. *)
Definition same_written (w w' : Writer) : Prop :=
  written (calls w') = written (calls w).

(** * Properties of the fan-out writer *)

Lemma Write_loop_prefix (p : bytes) (pre rest : list Writer) :
  Forall (accepts p) pre ->
  Write_loop (pre ++ rest) p =
  (map (delivered p) pre ++ fst (Write_loop rest p), snd (Write_loop rest p)).
Proof.
  induction 1 as [|w pre Hw _ IH]; simpl.
  - now destruct (Write_loop rest p).
  - unfold accepts in Hw. rewrite Hw, Z.eqb_refl. simpl.
    rewrite IH. reflexivity.
Qed.

Lemma close_loop_prefix (pre rest : list Writer) :
  Forall closes_ok pre ->
  close_loop (pre ++ rest) =
  (map closed pre ++ fst (close_loop rest), snd (close_loop rest)).
Proof.
  induction 1 as [|w pre Hw _ IH]; simpl.
  - now destruct (close_loop rest).
  - unfold closes_ok, closed in *. destruct (on_close w) as [closer|].
    + rewrite Hw, IH. reflexivity.
    + rewrite IH. reflexivity.
Qed.

(** C10. [Write] on a broadcaster with no registered sink succeeds: it
    returns [len(p)] and no error, and there is nothing it hands the bytes
    to. *)
Theorem Write_no_sinks (p : bytes) :
  Write emptyMultiWriter p = (emptyMultiWriter, (len p, None)).
Proof. reflexivity. Qed.

(** C3. Sinks [pre] are registered before sink [w], sinks [post] after it.
    If the sinks of [pre] take the buffer and [w], the k-th sink, is the
    first whose [Write] returns an error [e], then [Write] returns that
    error (with the count [w] gave), every sink of [pre] has been handed
    the whole buffer, and the sinks of [post] have not been called. *)
Theorem Write_first_error
    (pre post : list Writer) (w : Writer) (p : bytes) (n : Z) (e : error) :
  Forall (accepts p) pre ->
  on_write w (calls w) p = (n, Some e) ->
  Write (mkMultiWriter (pre ++ w :: post)) p =
  (mkMultiWriter (map (delivered p) pre ++ delivered p w :: post), (n, Some e)).
Proof.
  intros Hpre Hw. unfold Write. simpl writers.
  rewrite (Write_loop_prefix p pre (w :: post) Hpre).
  simpl. rewrite Hw. reflexivity.
Qed.

(** C4. If the sinks before [w] take the buffer and [w] reports no error
    but a count [n] below [len(p)], then [Write] stops at [w] and returns
    [io.ErrShortWrite]; the later sinks are not called. *)
Theorem Write_short_write
    (pre post : list Writer) (w : Writer) (p : bytes) (n : Z) :
  Forall (accepts p) pre ->
  on_write w (calls w) p = (n, None) ->
  n < len p ->
  Write (mkMultiWriter (pre ++ w :: post)) p =
  (mkMultiWriter (map (delivered p) pre ++ delivered p w :: post),
   (n, Some ErrShortWrite)).
Proof.
  intros Hpre Hw Hn. unfold Write. simpl writers.
  rewrite (Write_loop_prefix p pre (w :: post) Hpre).
  simpl. rewrite Hw.
  destruct (Z.eqb_spec n (len p)) as [Heq|_]; [lia|]. reflexivity.
Qed.

(** C6. What [close] does to any list of sinks. Either it returns nil:
    then no closing-capable sink failed, and each sink was closed if it
    can be and left alone if it cannot. Or it returns an error [e]: then
    the list splits at the first sink [w] whose [Close] fails, [e] is what
    that [Close] returned, the sinks before [w] were closed if they can be,
    and the sinks after [w] were not touched. *)
Theorem close_cascade (ws : list Writer) :
  match close (mkMultiWriter ws) with
  | (mw', None) =>
      Forall closes_ok ws /\ writers mw' = map closed ws
  | (mw', Some e) =>
      exists pre w post closer,
        ws = pre ++ w :: post /\
        Forall closes_ok pre /\
        on_close w = Some closer /\ closer (calls w) = Some e /\
        writers mw' = map closed pre ++ record_call w CClose :: post
  end.
Proof.
  unfold close. simpl writers.
  induction ws as [|w ws IH]; simpl.
  - split; constructor.
  - destruct (close_loop ws) as [ws' [e|]] eqn:Hloop; simpl in IH.
    + destruct IH as (pre & w0 & post & closer & -> & Hpre & Hc & He & Hws').
      destruct (on_close w) as [cw|] eqn:Hcw.
      * destruct (cw (calls w)) as [e'|] eqn:Hcall; simpl.
        -- exists [], w, (pre ++ w0 :: post), cw. repeat split; auto.
        -- exists (w :: pre), w0, post, closer. simpl. repeat split; auto.
           ++ constructor; auto. unfold closes_ok. now rewrite Hcw.
           ++ unfold closed at 1. rewrite Hcw. now rewrite Hws'.
      * simpl. exists (w :: pre), w0, post, closer. simpl. repeat split; auto.
        -- constructor; auto. unfold closes_ok. now rewrite Hcw.
        -- unfold closed at 1. rewrite Hcw. now rewrite Hws'.
    + destruct IH as [Hall Hws'].
      destruct (on_close w) as [cw|] eqn:Hcw.
      * destruct (cw (calls w)) as [e'|] eqn:Hcall; simpl.
        -- exists [], w, ws, cw. repeat split; auto.
        -- split.
           ++ constructor; auto. unfold closes_ok. now rewrite Hcw.
           ++ unfold closed at 1. rewrite Hcw. now rewrite Hws'.
      * simpl. split.
        -- constructor; auto. unfold closes_ok. now rewrite Hcw.
        -- unfold closed at 1. rewrite Hcw. now rewrite Hws'.
Qed.

Lemma Write_first_error_witness :
  let pre := [TestWriters.NewBuffer] in
  let post := [TestWriters.NewBuffer; TestWriters.closeWriter] in
  let p := Examples.hello_world in
  Forall (accepts p) pre /\
  on_write TestWriters.errWriter (calls TestWriters.errWriter) p = (0, Some EOF) /\
  Write (mkMultiWriter (pre ++ TestWriters.errWriter :: post)) p =
  (mkMultiWriter (map (delivered p) pre ++ delivered p TestWriters.errWriter :: post),
   (0, Some EOF)).
Proof.
  intros pre post p.
  assert (Hpre : Forall (accepts p) pre) by (repeat constructor).
  assert (Hw : on_write TestWriters.errWriter (calls TestWriters.errWriter) p
               = (0, Some EOF)) by reflexivity.
  split; [exact Hpre|]. split; [exact Hw|].
  exact (Write_first_error pre post TestWriters.errWriter p 0 EOF Hpre Hw).
Defined.

Lemma Write_short_write_witness :
  let pre := [TestWriters.NewBuffer] in
  let post := [TestWriters.errWriter] in
  let p := Examples.hello_world in
  Forall (accepts p) pre /\
  on_write TestWriters.shortWriter (calls TestWriters.shortWriter) p = (11, None) /\
  11 < len p /\
  Write (mkMultiWriter (pre ++ TestWriters.shortWriter :: post)) p =
  (mkMultiWriter (map (delivered p) pre ++ delivered p TestWriters.shortWriter :: post),
   (11, Some ErrShortWrite)).
Proof.
  intros pre post p.
  assert (Hpre : Forall (accepts p) pre) by (repeat constructor).
  assert (Hw : on_write TestWriters.shortWriter (calls TestWriters.shortWriter) p
               = (11, None)) by reflexivity.
  assert (Hn : 11 < len p) by (vm_compute; reflexivity).
  split; [exact Hpre|]. split; [exact Hw|]. split; [exact Hn|].
  exact (Write_short_write pre post TestWriters.shortWriter p 11 Hpre Hw Hn).
Defined.

(** * Properties of [copy] *)

Lemma Write_loop_same_behaviour (p : bytes) (ws : list Writer) :
  Forall2 same_behaviour ws (fst (Write_loop ws p)).
Proof.
  assert (Hrefl : forall l, Forall2 same_behaviour l l)
    by (induction l; constructor; [split|]; auto).
  induction ws as [|w ws IH]; simpl; [constructor|].
  destruct (on_write w (calls w) p) as [n [e|]]; simpl.
  - constructor; [split; reflexivity | apply Hrefl].
  - destruct (negb (n =? len p)); simpl.
    + constructor; [split; reflexivity | apply Hrefl].
    + destruct (Write_loop ws p) as [ws' r]. simpl in *.
      constructor; [split; reflexivity | exact IH].
Qed.

Lemma never_fails_close_same (ws ws' : list Writer) :
  Forall2 same_behaviour ws ws' ->
  Forall never_fails_close ws -> Forall never_fails_close ws'.
Proof.
  induction 1 as [|w w' ws ws' [_ Hc] _ IH]; intros Hall; [constructor|].
  inversion Hall as [|? ? Hw Hws]; subst. constructor; [|auto].
  unfold never_fails_close in *. now rewrite <- Hc.
Qed.

Lemma always_accepts_same (ws ws' : list Writer) :
  Forall2 same_behaviour ws ws' ->
  Forall always_accepts ws -> Forall always_accepts ws'.
Proof.
  induction 1 as [|w w' ws ws' [Hw _] _ IH]; intros Hall; [constructor|].
  inversion Hall as [|? ? Ha Hws]; subst. constructor; [|auto].
  unfold always_accepts in *. now rewrite <- Hw.
Qed.

Lemma io_Copy_loop_never_fails_close (src : list (bytes * option error)) :
  forall (dst : multiWriter) (written : Z),
    Forall never_fails_close (writers dst) ->
    Forall never_fails_close (writers (fst (io_Copy_loop dst src written))).
Proof.
  induction src as [|[chunk er] rest IH]; intros dst n Hdst; simpl; [exact Hdst|].
  assert (Hw : Forall never_fails_close (writers (fst (Write dst chunk)))).
  { unfold Write.
    pose proof (Write_loop_same_behaviour chunk (writers dst)) as Hs.
    destruct (Write_loop (writers dst) chunk) as [ws r]. simpl in *.
    eapply never_fails_close_same; eauto. }
  destruct (0 <? len chunk).
  - destruct (Write dst chunk) as [dst' [nw0 ew0]]. simpl in Hw.
    destruct ((nw0 <? 0) || (len chunk <? nw0)).
    + destruct ew0; exact Hw.
    + destruct ew0 as [e|]; [exact Hw|].
      destruct (negb (len chunk =? nw0)); [exact Hw|].
      destruct er as [e|]; simpl; [exact Hw | apply IH; exact Hw].
  - destruct er as [e|]; simpl; [exact Hdst | apply IH; exact Hdst].
Qed.

Lemma close_loop_never_fails (ws : list Writer) :
  Forall never_fails_close ws -> snd (close_loop ws) = None.
Proof.
  induction 1 as [|w ws Hw _ IH]; simpl; [reflexivity|].
  unfold never_fails_close in Hw.
  destruct (on_close w) as [closer|].
  - rewrite Hw. destruct (close_loop ws). exact IH.
  - destruct (close_loop ws). exact IH.
Qed.

Lemma Write_loop_always_accepts (p : bytes) (ws : list Writer) :
  Forall always_accepts ws ->
  Write_loop ws p = (map (delivered p) ws, (len p, None)).
Proof.
  induction 1 as [|w ws Hw _ IH]; simpl; [reflexivity|].
  rewrite (Hw (calls w) p), Z.eqb_refl, IH. reflexivity.
Qed.

Lemma delivered_always_accepts (p : bytes) (ws : list Writer) :
  Forall always_accepts ws -> Forall always_accepts (map (delivered p) ws).
Proof.
  induction 1 as [|w ws Hw _ IH]; simpl; constructor; auto.
Qed.

Lemma len_nonneg {A} (l : list A) : 0 <= len l.
Proof. unfold len. lia. Qed.

Lemma io_Copy_loop_forwards (src : list (bytes * option error)) :
  forall (dst : multiWriter) (written : Z),
    Forall always_accepts (writers dst) ->
    writers (fst (io_Copy_loop dst src written)) =
    map (deliver_all (forwarded src)) (writers dst).
Proof.
  induction src as [|[chunk er] rest IH]; intros dst n Hdst; simpl.
  - unfold deliver_all. simpl. now rewrite map_id.
  - destruct (0 <? len chunk) eqn:Hpos.
    + unfold Write. rewrite (Write_loop_always_accepts chunk _ Hdst).
      pose proof (len_nonneg chunk) as Hlen.
      replace (len chunk <? 0) with false by (symmetry; apply Z.ltb_ge; lia).
      rewrite Z.ltb_irrefl. simpl. rewrite Z.eqb_refl. simpl.
      destruct er as [e|]; simpl.
      * reflexivity.
      * rewrite IH by (simpl; apply delivered_always_accepts; exact Hdst).
        simpl. rewrite map_map. reflexivity.
    + destruct er as [e|]; simpl.
      * unfold deliver_all. simpl. now rewrite map_id.
      * apply IH. exact Hdst.
Qed.

(** C2, as the code has it. [copy] runs [io.Copy] from the source into
    [Write], which stops when the source is used up or at the first read or
    write that fails; it then calls [close] in every case and returns what
    [close] returns, nothing else. The error of [io.Copy] is dropped: when
    no sink's [Close] can fail, [copy] returns nil whatever the reads
    returned. Sinks that take whatever they are given are handed every
    non-empty chunk read, in order. *)
Theorem copy_returns_close_error (mw : multiWriter) (src : Reader) :
  copy mw src = close (fst (io_Copy mw src)) /\
  (Forall never_fails_close (writers mw) -> snd (copy mw src) = None) /\
  (Forall always_accepts (writers mw) ->
   writers (fst (io_Copy mw src)) =
   map (deliver_all (forwarded (reads src))) (writers mw)).
Proof.
  assert (Heq : copy mw src = close (fst (io_Copy mw src))).
  { unfold copy. now destruct (io_Copy mw src) as [mw' r]. }
  split; [exact Heq|]. split.
  - intros Hall. rewrite Heq. unfold close.
    pose proof (io_Copy_loop_never_fails_close (reads src) mw 0 Hall) as H.
    apply close_loop_never_fails in H. fold (io_Copy mw src) in H.
    destruct (close_loop (writers (fst (io_Copy mw src)))). exact H.
  - intros Hall. apply io_Copy_loop_forwards. exact Hall.
Qed.

Lemma copy_returns_close_error_witness :
  Forall never_fails_close (writers Examples.one_buffer) /\
  Forall always_accepts (writers Examples.one_buffer) /\
  snd (copy Examples.one_buffer Examples.broken_pipe) = None /\
  writers (fst (io_Copy Examples.one_buffer Examples.broken_pipe)) =
  map (deliver_all (forwarded (reads Examples.broken_pipe)))
      (writers Examples.one_buffer).
Proof.
  assert (Hc : Forall never_fails_close (writers Examples.one_buffer))
    by (repeat constructor).
  assert (Ha : Forall always_accepts (writers Examples.one_buffer))
    by (constructor; [intros h p; reflexivity | constructor]).
  split; [exact Hc|]. split; [exact Ha|].
  destruct (copy_returns_close_error Examples.one_buffer Examples.broken_pipe)
    as (_ & Hnil & Hfwd).
  split; [exact (Hnil Hc) | exact (Hfwd Ha)].
Defined.

(** C2, as the claim has it, fails: a read of the source returns an
    error that is not [io.EOF], [io.Copy] reports it, and [copy] returns
    nil. *)
Lemma copy_drops_read_error :
  snd (snd (io_Copy Examples.one_buffer Examples.broken_pipe))
  = Some (ErrOther "read |0: file already closed") /\
  error_eqb (ErrOther "read |0: file already closed") EOF = false /\
  snd (copy Examples.one_buffer Examples.broken_pipe) = None.
Proof. repeat split. Qed.

(** * Properties of the real process *)

Lemma AppendArgs_fold (appended : list (list string)) :
  forall proc : Real.process,
    Real.cmd (fold_left Real.AppendArgs appended proc) = Real.cmd proc /\
    Real.args (fold_left Real.AppendArgs appended proc)
    = Real.args proc ++ List.concat appended.
Proof.
  induction appended as [|a rest IH]; intros proc; simpl.
  - now rewrite app_nil_r.
  - destruct (IH (Real.AppendArgs proc a)) as [Hc Ha].
    rewrite Hc, Ha. simpl. now rewrite <- app_assoc.
Qed.

Lemma Start_cmd_Args (os : OS) (proc : Real.process) :
  Args (Real.cmd (fst (fst (Real.Start os proc))))
  = Args (Real.cmd proc) ++ Real.args proc.
Proof.
  unfold Real.Start, Real.exec_Start.
  destruct (os_StderrPipe os _) as [perr|e]; [|reflexivity].
  destruct (os_StdoutPipe os _) as [pout|e]; [|reflexivity].
  destruct (os_Start os _) as [h|e]; reflexivity.
Qed.

Lemma Start_Spawn_argv (os : OS) (proc : Real.process) :
  Forall (fun ef => match ef with
                    | Spawn argv => argv = Args (Real.cmd proc) ++ Real.args proc
                    | GoCopy _ _ => True
                    end)
         (snd (fst (Real.Start os proc))).
Proof.
  unfold Real.Start, Real.exec_Start.
  destruct (os_StderrPipe os _) as [perr|e]; [|constructor].
  destruct (os_StdoutPipe os _) as [pout|e]; [|repeat constructor].
  destruct (os_Start os _) as [h|e]; repeat constructor.
Qed.

(** C1, as the code has it. [Start] first finalizes the arguments. If the
    error pipe cannot be had it returns that error: no goroutine, no spawn.
    If the error pipe can be had and the output pipe cannot, the goroutine
    draining the error pipe has been launched, the one for the output pipe
    is not, and [Start] returns the error of the output pipe without
    calling the spawn primitive. Only when both pipes are had is the spawn
    primitive called, after both goroutines are launched, and its error is
    what [Start] returns. *)
Theorem Start_spawns_only_with_both_pipes (os : OS) (proc : Real.process) :
  let fin := Real.finalize_args proc in
  match os_StderrPipe os (Real.cmd fin), os_StdoutPipe os (Real.cmd fin) with
  | Err e, _ =>
      Real.Start os proc = (fin, [], Some e)
  | Ok perr, Err e =>
      Real.Start os proc = (fin, [GoCopy ErrStream perr], Some e)
  | Ok perr, Ok pout =>
      snd (fst (Real.Start os proc))
      = [GoCopy ErrStream perr; GoCopy OutStream pout; Spawn (Args (Real.cmd fin))] /\
      snd (Real.Start os proc) = snd (Real.exec_Start os (Real.cmd fin))
  end.
Proof.
  intros fin. unfold Real.Start. fold fin.
  destruct (os_StderrPipe os (Real.cmd fin)) as [perr|e]; [|reflexivity].
  destruct (os_StdoutPipe os (Real.cmd fin)) as [pout|e]; [|reflexivity].
  destruct (Real.exec_Start os (Real.cmd fin)) as [c' err']. split; reflexivity.
Qed.

(** C1, as the claim has it, fails: the error pipe is had, the output pipe
    is not, and [Start] returns the error of the output pipe with the
    error-drain goroutine launched and the spawn primitive never called. *)
Lemma Start_output_pipe_failure_aborts :
  let os := Examples.os_no_stdout_pipe in
  let proc := Real.Process Examples.ls in
  os_StderrPipe os (Real.cmd (Real.finalize_args proc)) = Ok Examples.some_pipe /\
  os_StdoutPipe os (Real.cmd (Real.finalize_args proc))
  = Err (ErrOther "exec: Stdout already set") /\
  snd (fst (Real.Start os proc)) = [GoCopy ErrStream Examples.some_pipe] /\
  spawned (snd (fst (Real.Start os proc))) = false /\
  snd (Real.Start os proc) = Some (ErrOther "exec: Stdout already set").
Proof. repeat split. Qed.

(** C5. A process made from a command, then any sequence of [AppendArgs]
    calls, then [Start]: the argument vector [Start] leaves in [cmd.Args],
    which is the one the spawn primitive is called with when it is called,
    is the command's path (argv[0], as [exec.Command] sets it) followed by
    the base arguments and then the appended ones, in call order. *)
Theorem Start_argument_list
    (os : OS) (path : string) (base : list string) (appended : list (list string)) :
  let proc := fold_left Real.AppendArgs appended (Real.Process (Real.New path base)) in
  let '(proc', effs, _) := Real.Start os proc in
  Args (Real.cmd proc') = path :: (base ++ List.concat appended) /\
  Forall (fun ef => match ef with
                    | Spawn argv => argv = path :: (base ++ List.concat appended)
                    | GoCopy _ _ => True
                    end) effs.
Proof.
  intros proc.
  pose proof (Start_cmd_Args os proc) as Hargs.
  pose proof (Start_Spawn_argv os proc) as Hspawn.
  destruct (AppendArgs_fold appended (Real.Process (Real.New path base))) as [Hc Ha].
  fold proc in Hc, Ha.
  assert (Hfinal : Args (Real.cmd proc) ++ Real.args proc
                   = path :: (base ++ List.concat appended)).
  { rewrite Hc, Ha. reflexivity. }
  rewrite Hfinal in Hargs, Hspawn.
  destruct (Real.Start os proc) as [[proc' effs] err]. simpl in *.
  split; assumption.
Qed.

(** C9. On a process whose [cmd.Process] is nil, as it is until a spawn
    has succeeded, [Kill] dereferences nil. After a [Start] that returned
    nil, [cmd.Process] is the handle the spawn primitive gave and [Kill]
    returns what the operating system's kill returns for it; after a
    [Start] that returned an error the handle is still nil. *)
Theorem Kill_needs_spawned_process (os : OS) (proc : Real.process) :
  Process (Real.cmd proc) = None ->
  Real.Kill os proc = Panic /\
  let '(proc', _, err) := Real.Start os proc in
  match err with
  | None =>
      exists h, os_Start os (Real.cmd (Real.finalize_args proc)) = Ok h /\
                Process (Real.cmd proc') = Some h /\
                Real.Kill os proc' = Ret (os_Kill os h)
  | Some _ => Real.Kill os proc' = Panic
  end.
Proof.
  intros Hnil. split.
  - unfold Real.Kill. now rewrite Hnil.
  - unfold Real.Start, Real.exec_Start, Real.Kill.
    destruct (os_StderrPipe os _) as [perr|e]; [|simpl; now rewrite Hnil].
    destruct (os_StdoutPipe os _) as [pout|e]; [|simpl; now rewrite Hnil].
    destruct (os_Start os _) as [h|e] eqn:Hstart; simpl.
    + exists h. repeat split.
    + now rewrite Hnil.
Qed.

Lemma Kill_needs_spawned_process_witness :
  let os := Examples.os_fine in
  let proc := Real.Process Examples.ls in
  Process (Real.cmd proc) = None /\
  Real.Kill os proc = Panic /\
  Real.Kill os (fst (fst (Real.Start os proc)))
  = Ret (Some (ErrOther "os: process already finished")).
Proof.
  intros os proc.
  assert (Hnil : Process (Real.cmd proc) = None) by reflexivity.
  split; [exact Hnil|].
  destruct (Kill_needs_spawned_process os proc Hnil) as [Hbefore _].
  split; [exact Hbefore | reflexivity].
Defined.

(** * Properties of the test double *)

Lemma fold_Stdout (outs : list Writer) :
  forall p : Double.testProcess,
    fold_left Double.Stdout outs p =
    Double.mkTestProcess (Double.stdinReader p) (Double.stdout p)
      (mkMultiWriter (writers (Double.stdoutWriter p) ++ outs))
      (Double.stderr p) (Double.stderrWriter p) (Double.wg p)
      (Double.startErr p) (Double.waitErr p) (Double.killErr p).
Proof.
  induction outs as [|w outs IH]; intros p; simpl.
  - rewrite app_nil_r. destruct p as [? ? [?] ? ? ? ? ? ?]. reflexivity.
  - rewrite IH. simpl. now rewrite <- app_assoc.
Qed.

Lemma fold_Stderr (errs : list Writer) :
  forall p : Double.testProcess,
    fold_left Double.Stderr errs p =
    Double.mkTestProcess (Double.stdinReader p) (Double.stdout p)
      (Double.stdoutWriter p) (Double.stderr p)
      (mkMultiWriter (writers (Double.stderrWriter p) ++ errs)) (Double.wg p)
      (Double.startErr p) (Double.waitErr p) (Double.killErr p).
Proof.
  induction errs as [|w errs IH]; intros p; simpl.
  - rewrite app_nil_r. destruct p as [? ? ? ? [?] ? ? ? ?]. reflexivity.
  - rewrite IH. simpl. now rewrite <- app_assoc.
Qed.

Lemma register_all_Process (outs errs : list Writer) (tc : TestCmd.t) :
  register_all outs errs (Double.Process tc) =
  Double.mkTestProcess None (TestCmd.Stdout tc) (mkMultiWriter outs)
    (TestCmd.Stderr tc) (mkMultiWriter errs) 0
    (TestCmd.StartErr tc) (TestCmd.WaitErr tc) (TestCmd.KillErr tc).
Proof.
  unfold register_all. rewrite fold_Stderr, fold_Stdout. reflexivity.
Qed.

Lemma buffer_like_delivered (p : bytes) (ws : list Writer) :
  Forall buffer_like ws -> Forall buffer_like (map (delivered p) ws).
Proof.
  induction 1 as [|w ws [Ha Hc] _ IH]; simpl; constructor; auto.
  split; [exact Ha | exact Hc].
Qed.

Lemma buffer_like_sinks_at (at_ : Double.pc) (data : bytes) (ws : list Writer) :
  Forall buffer_like ws -> Forall buffer_like (sinks_at at_ data ws).
Proof.
  intros H. destruct at_; simpl; auto;
    destruct (0 <? len data); auto using buffer_like_delivered.
Qed.

Lemma Write_buffer_like (p : bytes) (ws : list Writer) :
  Forall buffer_like ws ->
  Write (mkMultiWriter ws) p = (mkMultiWriter (map (delivered p) ws), (len p, None)).
Proof.
  intros H. unfold Write. simpl writers.
  rewrite Write_loop_always_accepts; [reflexivity|].
  eapply Forall_impl; [|exact H]. now intros w [Ha _].
Qed.

Lemma close_buffer_like (ws : list Writer) :
  Forall buffer_like ws -> Close (mkMultiWriter ws) = (mkMultiWriter ws, None).
Proof.
  intros H. unfold Close, close. simpl writers.
  assert (Hloop : close_loop ws = (ws, None)).
  { induction H as [|w ws [_ Hc] _ IH]; simpl; [reflexivity|].
    now rewrite Hc, IH. }
  now rewrite Hloop.
Qed.

Section Interleavings.

Variables (out err : bytes) (outs errs : list Writer) (waitE killE : option error).
Hypothesis Houts : Forall buffer_like outs.
Hypothesis Herrs : Forall buffer_like errs.

Local Abbreviation W := (world_at out err outs errs waitE killE).

(** The goroutine of the output stream takes its next statement. *)
Lemma sched_out (a b : Double.pc) :
  Double.sched 0 (W a b) =
  match a with
  | Double.Finished => None
  | _ => Some (W (next a) b)
  end.
Proof.
  unfold W, world_at, Double.sched. simpl nth_error. cbv iota beta.
  destruct a; simpl Double.task_step; cbv iota beta.
  - simpl Double.data. destruct (0 <? len out) eqn:Hlen.
    + simpl Double.writer. rewrite Write_buffer_like by exact Houts.
      simpl. rewrite Hlen. reflexivity.
    + simpl. rewrite Hlen. reflexivity.
  - simpl Double.writer.
    rewrite close_buffer_like
      by exact (buffer_like_sinks_at Double.AtClose out outs Houts).
    reflexivity.
  - simpl. do 2 f_equal. f_equal. destruct b; reflexivity.
  - reflexivity.
Qed.

(** The goroutine of the error stream takes its next statement. *)
Lemma sched_err (a b : Double.pc) :
  Double.sched 1 (W a b) =
  match b with
  | Double.Finished => None
  | _ => Some (W a (next b))
  end.
Proof.
  unfold W, world_at, Double.sched. simpl nth_error. cbv iota beta.
  destruct b; simpl Double.task_step; cbv iota beta.
  - simpl Double.data. destruct (0 <? len err) eqn:Hlen.
    + simpl Double.writer. rewrite Write_buffer_like by exact Herrs.
      simpl. rewrite Hlen. reflexivity.
    + simpl. rewrite Hlen. reflexivity.
  - simpl Double.writer.
    rewrite close_buffer_like
      by exact (buffer_like_sinks_at Double.AtClose err errs Herrs).
    reflexivity.
  - simpl. do 2 f_equal. f_equal. destruct a; reflexivity.
  - reflexivity.
Qed.

Lemma sched_none (i : nat) (a b : Double.pc) :
  Double.sched (S (S i)) (W a b) = None.
Proof. unfold Double.sched. simpl. now destruct i. Qed.

(** Every world the goroutines can reach has the form [W a b]. *)
Lemma steps_world_at (a b : Double.pc) (w : Double.world) :
  Double.steps (W a b) w -> exists a' b', w = W a' b'.
Proof.
  intros Hsteps. remember (W a b) as w0 eqn:Hw0.
  revert a b Hw0.
  induction Hsteps as [w0|w0 w1 w2 [i Hstep] _ IH]; intros a b ->.
  - now exists a, b.
  - destruct i as [|[|i]].
    + rewrite sched_out in Hstep.
      destruct a; inversion Hstep; subst; eapply IH; reflexivity.
    + rewrite sched_err in Hstep.
      destruct b; inversion Hstep; subst; eapply IH; reflexivity.
    + rewrite sched_none in Hstep. discriminate.
Qed.

(** From any such world the goroutines can run to completion. *)
Lemma steps_to_finished (a b : Double.pc) :
  Double.steps (W a b) (W Double.Finished Double.Finished).
Proof.
  assert (Hout : forall a0 b0, a0 <> Double.Finished ->
                               Double.step (W a0 b0) (W (next a0) b0)).
  { intros a0 b0 Ha. exists 0%nat. rewrite sched_out. now destruct a0. }
  assert (Herr : forall a0 b0, b0 <> Double.Finished ->
                               Double.step (W a0 b0) (W a0 (next b0))).
  { intros a0 b0 Hb. exists 1%nat. rewrite sched_err. now destruct b0. }
  assert (Ha : forall a0 b0, Double.steps (W a0 b0) (W Double.Finished b0)).
  { intros a0 b0. destruct a0.
    - eapply Relation_Operators.rt1n_trans; [apply Hout; discriminate|].
      eapply Relation_Operators.rt1n_trans; [apply Hout; discriminate|].
      eapply Relation_Operators.rt1n_trans; [apply Hout; discriminate|]. apply rt1n_refl.
    - eapply Relation_Operators.rt1n_trans; [apply Hout; discriminate|].
      eapply Relation_Operators.rt1n_trans; [apply Hout; discriminate|]. apply rt1n_refl.
    - eapply Relation_Operators.rt1n_trans; [apply Hout; discriminate|]. apply rt1n_refl.
    - apply rt1n_refl. }
  assert (Hb : forall b0, Double.steps (W Double.Finished b0)
                                       (W Double.Finished Double.Finished)).
  { intros b0. destruct b0.
    - eapply Relation_Operators.rt1n_trans; [apply Herr; discriminate|].
      eapply Relation_Operators.rt1n_trans; [apply Herr; discriminate|].
      eapply Relation_Operators.rt1n_trans; [apply Herr; discriminate|]. apply rt1n_refl.
    - eapply Relation_Operators.rt1n_trans; [apply Herr; discriminate|].
      eapply Relation_Operators.rt1n_trans; [apply Herr; discriminate|]. apply rt1n_refl.
    - eapply Relation_Operators.rt1n_trans; [apply Herr; discriminate|]. apply rt1n_refl.
    - apply rt1n_refl. }
  specialize (Ha a b). specialize (Hb b).
  apply clos_rt_rt1n. eapply rt_trans; apply clos_rt1n_rt; eassumption.
Qed.

(** [Wait] returns in [W a b] exactly when both goroutines are done. *)
Lemma Wait_world_at (a b : Double.pc) (r : option error) :
  Double.Wait (W a b) = Some r ->
  a = Double.Finished /\ b = Double.Finished /\ r = waitE.
Proof.
  unfold Double.Wait, W, world_at. simpl.
  destruct a, b; simpl; intros H; try discriminate.
  inversion H. auto.
Qed.

End Interleavings.

Lemma buffer_like_NewBuffers (n : nat) :
  Forall buffer_like (repeat TestWriters.NewBuffer n).
Proof.
  induction n; simpl; constructor; auto.
  split; [intros h p; reflexivity | reflexivity].
Qed.

Lemma len_zero_nil {A} (l : list A) : (0 <? len l) = false -> l = [].
Proof.
  destruct l; [reflexivity|]. unfold len. simpl List.length.
  intros H. apply Z.ltb_ge in H. lia.
Qed.

(** The buffers of a stream whose goroutine is done hold the data. *)
Lemma finished_buffers_hold_data (data : bytes) (n : nat) :
  let ws := sinks_at Double.Finished data (repeat TestWriters.NewBuffer n) in
  List.length ws = n /\ Forall (fun s => TestWriters.Bytes s = data) ws.
Proof.
  simpl. destruct (0 <? len data) eqn:Hlen.
  - rewrite length_map, repeat_length. split; [reflexivity|].
    induction n; simpl; constructor; auto.
    unfold TestWriters.Bytes. simpl. apply app_nil_r.
  - rewrite repeat_length. split; [reflexivity|].
    apply len_zero_nil in Hlen. subst data.
    induction n; simpl; constructor; auto.
Qed.

(** C7. A double with no start error, any output and error bytes (such as
    [hello] and [world]), any wait error, and fresh buffers registered on
    each stream. [Start] returns nil. However the two goroutines are
    interleaved, they can always run on until [Wait] returns; and whenever
    [Wait] returns, it returns the configured wait error, both goroutines
    have finished, every output buffer holds exactly the output bytes and
    every error buffer exactly the error bytes. *)
Theorem double_start_then_wait
    (out err : bytes) (waitE killE : option error) (nout nerr : nat) :
  let tc := TestCmd.mk out err None waitE killE in
  let p := register_all (repeat TestWriters.NewBuffer nout)
                        (repeat TestWriters.NewBuffer nerr) (Double.Process tc) in
  let w1 := fst (Double.Start (Double.idle p)) in
  snd (Double.Start (Double.idle p)) = None /\
  (forall w, Double.steps w1 w ->
     exists w', Double.steps w w' /\ Double.Wait w' = Some waitE) /\
  (forall w r, Double.steps w1 w -> Double.Wait w = Some r ->
     r = waitE /\ Double.all_finished w /\
     List.length (writers (Double.stdoutWriter (Double.tp w))) = nout /\
     Forall (fun s => TestWriters.Bytes s = out)
            (writers (Double.stdoutWriter (Double.tp w))) /\
     List.length (writers (Double.stderrWriter (Double.tp w))) = nerr /\
     Forall (fun s => TestWriters.Bytes s = err)
            (writers (Double.stderrWriter (Double.tp w)))).
Proof.
  intros tc p w1.
  pose proof (buffer_like_NewBuffers nout) as Houts.
  pose proof (buffer_like_NewBuffers nerr) as Herrs.
  set (W := world_at out err (repeat TestWriters.NewBuffer nout)
                     (repeat TestWriters.NewBuffer nerr) waitE killE).
  assert (Hw1 : w1 = W Double.AtWrite Double.AtWrite).
  { unfold w1, p. rewrite register_all_Process. reflexivity. }
  split; [|split].
  - unfold p. rewrite register_all_Process. reflexivity.
  - intros w Hsteps. rewrite Hw1 in Hsteps.
    destruct (steps_world_at _ _ _ _ _ _ Houts Herrs _ _ _ Hsteps) as (a & b & ->).
    exists (W Double.Finished Double.Finished). split.
    + apply steps_to_finished; assumption.
    + reflexivity.
  - intros w r Hsteps Hwait. rewrite Hw1 in Hsteps.
    destruct (steps_world_at _ _ _ _ _ _ Houts Herrs _ _ _ Hsteps) as (a & b & ->).
    apply Wait_world_at in Hwait. destruct Hwait as (-> & -> & ->).
    split; [reflexivity|]. split; [repeat constructor|].
    destruct (finished_buffers_hold_data out nout) as [Hl1 Hb1].
    destruct (finished_buffers_hold_data err nerr) as [Hl2 Hb2].
    repeat split; assumption.
Qed.

Lemma double_start_then_wait_witness :
  let tc := TestCmd.mk Examples.hello Examples.world None (Some EOF) None in
  let p := register_all (repeat TestWriters.NewBuffer 2)
                        (repeat TestWriters.NewBuffer 2) (Double.Process tc) in
  let w1 := fst (Double.Start (Double.idle p)) in
  snd (Double.Start (Double.idle p)) = None /\
  (forall w, Double.steps w1 w ->
     exists w', Double.steps w w' /\ Double.Wait w' = Some (Some EOF)) /\
  (forall w r, Double.steps w1 w -> Double.Wait w = Some r ->
     r = Some EOF /\ Double.all_finished w /\
     List.length (writers (Double.stdoutWriter (Double.tp w))) = 2%nat /\
     Forall (fun s => TestWriters.Bytes s = Examples.hello)
            (writers (Double.stdoutWriter (Double.tp w))) /\
     List.length (writers (Double.stderrWriter (Double.tp w))) = 2%nat /\
     Forall (fun s => TestWriters.Bytes s = Examples.world)
            (writers (Double.stderrWriter (Double.tp w)))).
Proof.
  exact (double_start_then_wait Examples.hello Examples.world (Some EOF) None 2 2).
Defined.

(** The scenario of the tests on one schedule: [hello] and [world], two
    buffers on each stream, the goroutines taking turns. *)
Lemma double_hello_world_run :
  let tc := TestCmd.mk Examples.hello Examples.world None (Some EOF) None in
  let p := register_all (repeat TestWriters.NewBuffer 2)
                        (repeat TestWriters.NewBuffer 2) (Double.Process tc) in
  let w1 := fst (Double.Start (Double.idle p)) in
  Double.Wait w1 = None /\
  exists w, Double.run [0; 1; 0; 1; 0; 1]%nat w1 = Some w /\
            Double.Wait w = Some (Some EOF) /\
            map TestWriters.Bytes (writers (Double.stdoutWriter (Double.tp w)))
            = [Examples.hello; Examples.hello] /\
            map TestWriters.Bytes (writers (Double.stderrWriter (Double.tp w)))
            = [Examples.world; Examples.world].
Proof.
  split; [reflexivity|]. eexists. split; [reflexivity|]. repeat split.
Qed.

Lemma steps_idle (p : Double.testProcess) (w : Double.world) :
  Double.steps (Double.idle p) w -> w = Double.idle p.
Proof.
  intros H. remember (Double.idle p) as w0 eqn:Hw0.
  induction H as [w0|w0 w1 w2 [i Hstep] _ _]; [reflexivity|].
  subst w0. unfold Double.sched in Hstep. simpl in Hstep.
  destruct i; discriminate.
Qed.

(** C8. A double with start error [E] and any sinks registered: [Start]
    returns [E] and launches no goroutine; in every world that can follow
    there is still no goroutine, every sink is exactly as it was when it
    was registered, and [Wait] returns at once. *)
Theorem double_start_error
    (tc : TestCmd.t) (E : error) (outs errs : list Writer) :
  TestCmd.StartErr tc = Some E ->
  let p := register_all outs errs (Double.Process tc) in
  let w1 := fst (Double.Start (Double.idle p)) in
  snd (Double.Start (Double.idle p)) = Some E /\
  forall w, Double.steps w1 w ->
    Double.tasks w = [] /\
    writers (Double.stdoutWriter (Double.tp w)) = outs /\
    writers (Double.stderrWriter (Double.tp w)) = errs /\
    Double.Wait w = Some (TestCmd.WaitErr tc).
Proof.
  intros HE p w1.
  assert (Hstart : Double.Start (Double.idle p) = (Double.idle p, Some E)).
  { unfold p. rewrite register_all_Process. unfold Double.Start. simpl.
    rewrite HE. reflexivity. }
  unfold w1. rewrite Hstart. simpl. split; [reflexivity|].
  intros w Hsteps. apply steps_idle in Hsteps. subst w.
  unfold p. rewrite register_all_Process. repeat split.
Qed.

Lemma double_start_error_witness :
  let tc := TestCmd.mk Examples.hello Examples.world (Some EOF) None None in
  let outs := [TestWriters.NewBuffer; TestWriters.closeWriter] in
  let errs := [TestWriters.NewBuffer] in
  let p := register_all outs errs (Double.Process tc) in
  TestCmd.StartErr tc = Some EOF /\
  snd (Double.Start (Double.idle p)) = Some EOF /\
  forall w, Double.steps (fst (Double.Start (Double.idle p))) w ->
    Double.tasks w = [] /\
    writers (Double.stdoutWriter (Double.tp w)) = outs /\
    writers (Double.stderrWriter (Double.tp w)) = errs /\
    Double.Wait w = Some None.
Proof.
  intros tc outs errs p.
  assert (HE : TestCmd.StartErr tc = Some EOF) by reflexivity.
  split; [exact HE|].
  exact (double_start_error tc EOF outs errs HE).
Defined.

(** * Further properties of the fan-out writer *)

(** X1. What [Write] does to any list of sinks. Either it returns no
    error: then the count is [len(p)], every sink took the whole buffer and
    each has been handed it once. Or it returns an error: then the list
    splits at the first sink that did not take the whole buffer, the sinks
    before it have been handed the buffer, the sinks after it have not been
    called, and the result is that sink's count with its own error, or with
    [io.ErrShortWrite] when it reported none but a count other than
    [len(p)] (larger counts included). *)
Theorem Write_outcome (ws : list Writer) (p : bytes) :
  match Write (mkMultiWriter ws) p with
  | (mw', (n, None)) =>
      n = len p /\ Forall (accepts p) ws /\ writers mw' = map (delivered p) ws
  | (mw', (n, Some e)) =>
      exists pre w post,
        ws = pre ++ w :: post /\
        Forall (accepts p) pre /\
        writers mw' = map (delivered p) pre ++ delivered p w :: post /\
        (on_write w (calls w) p = (n, Some e) \/
         (on_write w (calls w) p = (n, None) /\ n <> len p /\ e = ErrShortWrite))
  end.
Proof.
  unfold Write. simpl writers.
  induction ws as [|w ws IH]; simpl.
  - repeat split; constructor.
  - destruct (on_write w (calls w) p) as [n [e|]] eqn:Hw; simpl.
    + exists [], w, ws. repeat split; auto.
    + destruct (Z.eqb_spec n (len p)) as [Hn|Hn]; simpl.
      * subst n.
        destruct (Write_loop ws p) as [ws' [m [e|]]]; simpl in *.
        -- destruct IH as (pre & w0 & post & -> & Hpre & Hws' & Hcase).
           exists (w :: pre), w0, post. simpl. repeat split; auto.
           now rewrite Hws'.
        -- destruct IH as (Hm & Hall & Hws'). repeat split; auto.
           now rewrite Hws'.
      * exists [], w, ws. repeat split; auto.
Qed.

(** X2. A sink registered between two writes receives the second write
    only; the sinks registered before it receive both, in order, and come
    first. (Sinks that take whatever they are given.) *)
Theorem Write_after_add (mw : multiWriter) (w : Writer) (p1 p2 : bytes) :
  Forall always_accepts (writers mw) ->
  always_accepts w ->
  Write (add (fst (Write mw p1)) w) p2 =
  (mkMultiWriter (map (deliver_all [p1; p2]) (writers mw) ++ [delivered p2 w]),
   (len p2, None)).
Proof.
  intros Hmw Hw. unfold Write, add.
  rewrite (Write_loop_always_accepts p1 _ Hmw). simpl fst. simpl writers.
  rewrite Write_loop_always_accepts.
  - rewrite map_app, map_map. reflexivity.
  - apply Forall_app. split.
    + clear Hw. induction Hmw; simpl; constructor; auto.
    + constructor; [exact Hw | constructor].
Qed.

Lemma Write_after_add_witness :
  let mw := Examples.one_buffer in
  Forall always_accepts (writers mw) /\
  always_accepts TestWriters.NewBuffer /\
  map TestWriters.Bytes
      (writers (fst (Write (add (fst (Write mw Examples.hello)) TestWriters.NewBuffer)
                           Examples.world)))
  = [(Examples.hello ++ Examples.world)%list; Examples.world].
Proof.
  intros mw.
  assert (Ha : always_accepts TestWriters.NewBuffer) by (intros h p; reflexivity).
  assert (Hmw : Forall always_accepts (writers mw))
    by (constructor; [exact Ha | constructor]).
  split; [exact Hmw|]. split; [exact Ha|].
  rewrite (Write_after_add mw TestWriters.NewBuffer Examples.hello Examples.world Hmw Ha).
  reflexivity.
Defined.

(** * Further properties of [copy] *)

Lemma Bytes_deliver_all (chunks : list bytes) :
  forall w : Writer,
    TestWriters.Bytes (deliver_all chunks w)
    = (TestWriters.Bytes w ++ List.concat chunks)%list.
Proof.
  assert (Hw : forall cs p, written (cs ++ [CWrite p]) = (written cs ++ [p])%list).
  { induction cs as [|[q|] cs IH]; intros p; simpl; auto. now rewrite IH. }
  unfold deliver_all.
  induction chunks as [|c chunks IH]; intros w; simpl.
  - now rewrite app_nil_r.
  - rewrite IH. unfold TestWriters.Bytes, delivered. simpl.
    rewrite Hw, concat_app. simpl. rewrite app_nil_r. now rewrite <- app_assoc.
Qed.

Lemma buffer_like_deliver_all (chunks : list bytes) (ws : list Writer) :
  Forall buffer_like ws -> Forall buffer_like (map (deliver_all chunks) ws).
Proof.
  intros H. induction H as [|w ws [Ha Hc] _ IH]; simpl; constructor; auto.
  clear IH. unfold deliver_all. revert w Ha Hc.
  induction chunks as [|c chunks IHc]; intros w Ha Hc; simpl.
  - split; assumption.
  - apply IHc; [exact Ha | exact Hc].
Qed.

Lemma concat_forwarded (clean tail : list (bytes * option error)) :
  Forall (fun r => snd r = None) clean ->
  match tail with [] => True | (_, er) :: _ => er <> None end ->
  List.concat (forwarded (clean ++ tail))
  = (List.concat (map fst clean)
     ++ match tail with [] => [] | (chunk, _) :: _ => chunk end)%list.
Proof.
  assert (Hone : forall chunk : bytes,
             List.concat (if 0 <? len chunk then [chunk] else []) = chunk).
  { intros chunk. destruct (0 <? len chunk) eqn:H; simpl.
    - apply app_nil_r.
    - symmetry. now apply len_zero_nil. }
  intros Hclean Htail.
  induction Hclean as [|[chunk er] clean Hr _ IH]; simpl.
  - destruct tail as [|[chunk [e|]] rest]; simpl; [reflexivity| |contradiction].
    rewrite app_nil_r. apply Hone.
  - simpl in Hr. subst er. rewrite concat_app, Hone, IH. now rewrite app_assoc.
Qed.

(** X3. [copy] into sinks that behave as buffers: [copy] returns nil, and
    each sink then holds what it held before followed by everything the
    source delivered up to and including the chunk that came with its first
    error, and nothing of what the source would have delivered after
    that. A source that ends without an error is copied whole. *)
Theorem copy_into_buffers
    (mw : multiWriter) (clean tail : list (bytes * option error)) :
  Forall buffer_like (writers mw) ->
  Forall (fun r => snd r = None) clean ->
  match tail with [] => True | (_, er) :: _ => er <> None end ->
  let src := mkReader (clean ++ tail) in
  snd (copy mw src) = None /\
  Forall2 (fun s s' =>
             TestWriters.Bytes s' =
             (TestWriters.Bytes s ++ List.concat (map fst clean)
              ++ match tail with [] => [] | (chunk, _) :: _ => chunk end)%list)
          (writers mw) (writers (fst (copy mw src))).
Proof.
  intros Hbuf Hclean Htail src.
  assert (Hacc : Forall always_accepts (writers mw))
    by (eapply Forall_impl; [|exact Hbuf]; now intros w [Ha _]).
  pose proof (io_Copy_loop_forwards (reads src) mw 0 Hacc) as Hfwd.
  fold (io_Copy mw src) in Hfwd.
  pose proof (close_buffer_like _ (buffer_like_deliver_all (forwarded (reads src)) _ Hbuf))
    as Hclose.
  unfold Close in Hclose.
  assert (Hcopy : copy mw src
                  = (mkMultiWriter (map (deliver_all (forwarded (reads src))) (writers mw)),
                     None)).
  { unfold copy. destruct (io_Copy mw src) as [[ws1] r1]. simpl in Hfwd. subst ws1.
    exact Hclose. }
  rewrite Hcopy. simpl fst. simpl snd. simpl writers.
  split; [reflexivity|].
  pose proof (concat_forwarded clean tail Hclean Htail) as Hcat.
  clear Hclose Hbuf Hacc Hfwd Hcopy. unfold src. simpl reads.
  induction (writers mw) as [|w ws IH]; simpl; constructor; auto.
  rewrite Bytes_deliver_all, Hcat. reflexivity.
Qed.

Lemma copy_into_buffers_witness :
  let clean := [(Examples.hello, @None error)] in
  let tail := [(Examples.world, Some (ErrOther "broken")); (Examples.hello, None)] in
  Forall buffer_like (writers Examples.one_buffer) /\
  Forall (fun r => snd r = None) clean /\
  snd (copy Examples.one_buffer (mkReader (clean ++ tail))) = None /\
  Forall2 (fun s s' =>
             TestWriters.Bytes s' =
             (TestWriters.Bytes s ++ List.concat (map fst clean) ++ Examples.world)%list)
          (writers Examples.one_buffer)
          (writers (fst (copy Examples.one_buffer (mkReader (clean ++ tail))))).
Proof.
  intros clean tail.
  assert (Hb : Forall buffer_like (writers Examples.one_buffer)).
  { constructor; [|constructor]. split; [intros h p; reflexivity | reflexivity]. }
  assert (Hc : Forall (fun r : bytes * option error => snd r = None) clean)
    by (repeat constructor).
  assert (Ht : match tail with [] => True | (_, er) :: _ => er <> None end)
    by (simpl; discriminate).
  split; [exact Hb|]. split; [exact Hc|].
  exact (copy_into_buffers Examples.one_buffer clean tail Hb Hc Ht).
Defined.

Lemma io_Copy_loop_app (pre l : list (bytes * option error)) :
  Forall (fun r => snd r = None) pre ->
  forall (mw mw1 : multiWriter) (n n1 : Z),
    io_Copy_loop mw pre n = (mw1, (n1, None)) ->
    io_Copy_loop mw (pre ++ l) n = io_Copy_loop mw1 l n1.
Proof.
  induction 1 as [|[chunk er] pre Hr _ IH]; intros mw mw1 n n1 Hpre; simpl in *.
  - inversion Hpre; subst. reflexivity.
  - subst er. destruct (0 <? len chunk).
    + destruct (Write mw chunk) as [dst' [nw0 ew0]].
      destruct ((nw0 <? 0) || (len chunk <? nw0)).
      * destruct ew0; discriminate.
      * destruct ew0 as [e|]; [discriminate|].
        destruct (negb (len chunk =? nw0)); [discriminate|].
        simpl in *. apply IH. exact Hpre.
    + simpl in *. apply IH. exact Hpre.
Qed.

(** X4. A sink failure ends the drain. If the reads of [pre] were copied
    without an error and [Write] then fails on the next non-empty chunk,
    [io.Copy] stops with that error: nothing of the rest of the source is
    handed to any sink, and [copy] goes on to [close] the sinks as that
    [Write] left them. *)
Theorem copy_stops_at_failed_write
    (mw mw1 : multiWriter) (pre rest : list (bytes * option error))
    (chunk : bytes) (er : option error) (n1 : Z) (e : error) :
  Forall (fun r => snd r = None) pre ->
  io_Copy mw (mkReader pre) = (mw1, (n1, None)) ->
  0 < len chunk ->
  snd (snd (Write mw1 chunk)) = Some e ->
  let src := mkReader (pre ++ (chunk, er) :: rest) in
  snd (snd (io_Copy mw src)) = Some e /\
  copy mw src = close (fst (Write mw1 chunk)).
Proof.
  intros Hpre Hcopy Hlen Hfail src.
  assert (Hstop : exists n, io_Copy mw src = (fst (Write mw1 chunk), (n, Some e))).
  { unfold io_Copy, src in *. simpl reads in *.
    rewrite (io_Copy_loop_app pre _ Hpre mw mw1 0 n1 Hcopy). simpl.
    apply Z.ltb_lt in Hlen. rewrite Hlen.
    destruct (Write mw1 chunk) as [dst' [nw0 ew0]]. simpl in Hfail. subst ew0.
    destruct ((nw0 <? 0) || (len chunk <? nw0)); eexists; reflexivity. }
  destruct Hstop as [n Hstop]. unfold copy. rewrite Hstop. split; reflexivity.
Qed.

Lemma copy_stops_at_failed_write_witness :
  let mw := add Examples.one_buffer TestWriters.errWriter in
  let pre := [(@nil byte, @None error)] in
  let rest := [(Examples.world, @None error)] in
  let src := mkReader (pre ++ (Examples.hello, None) :: rest) in
  Forall (fun r => snd r = None) pre /\
  io_Copy mw (mkReader pre) = (mw, (0, None)) /\
  0 < len Examples.hello /\
  snd (snd (Write mw Examples.hello)) = Some EOF /\
  snd (snd (io_Copy mw src)) = Some EOF /\
  map (fun s => written (calls s)) (writers (fst (copy mw src)))
  = [[Examples.hello]; [Examples.hello]].
Proof.
  intros mw pre rest src.
  assert (Hpre : Forall (fun r : bytes * option error => snd r = None) pre)
    by (repeat constructor).
  assert (Hcopy : io_Copy mw (mkReader pre) = (mw, (0, None))) by reflexivity.
  assert (Hlen : 0 < len Examples.hello) by (vm_compute; reflexivity).
  assert (Hfail : snd (snd (Write mw Examples.hello)) = Some EOF) by reflexivity.
  split; [exact Hpre|]. split; [exact Hcopy|]. split; [exact Hlen|].
  split; [exact Hfail|].
  destruct (copy_stops_at_failed_write mw mw pre rest Examples.hello None 0 EOF
              Hpre Hcopy Hlen Hfail) as [Herr Hclose].
  split; [exact Herr | reflexivity].
Defined.

(** * Further properties of the real process and its command *)

Lemma String_loop_map (quote : string -> string) (range : list string) :
  forall args : list string,
    String_loop quote range args = (args ++ map (String_arg quote) range)%list.
Proof.
  induction range as [|arg rest IH]; intros args; simpl.
  - now rewrite app_nil_r.
  - rewrite IH. now rewrite <- app_assoc.
Qed.

Lemma String_arg_plain (quote : string -> string) (args : list string) :
  Forall plain args -> map (String_arg quote) args = args.
Proof.
  induction 1 as [|arg args Harg _ IH]; simpl; [reflexivity|].
  rewrite IH. unfold String_arg, plain in *.
  destruct (Z.leb_spec 0 (IndexAny arg blanks)); [lia | reflexivity].
Qed.

Lemma Start_keeps (os : OS) (proc : Real.process) :
  Real.args (fst (fst (Real.Start os proc))) = Real.args proc /\
  Real.stdout (fst (fst (Real.Start os proc))) = Real.stdout proc /\
  Real.stderr (fst (fst (Real.Start os proc))) = Real.stderr proc.
Proof.
  unfold Real.Start, Real.exec_Start.
  destruct (os_StderrPipe os _) as [perr|e]; [|repeat split].
  destruct (os_StdoutPipe os _) as [pout|e]; [|repeat split].
  destruct (os_Start os _) as [h|e]; repeat split.
Qed.

(** X5. Before [Start], [String] of a process made from a command shows
    the command line [Start] will use: when no argument contains a blank,
    a tab or a line break, it is the path, the base arguments and the
    appended arguments in call order, joined by single spaces, and nothing
    is quoted. *)
Theorem String_plain_arguments
    (quote : string -> string) (path : string) (base : list string)
    (appended : list (list string)) :
  Forall plain (path :: (base ++ List.concat appended)) ->
  process_String quote
    (fold_left Real.AppendArgs appended (Real.Process (Real.New path base)))
  = String.concat " " (path :: (base ++ List.concat appended)).
Proof.
  intros Hplain. unfold process_String.
  destruct (AppendArgs_fold appended (Real.Process (Real.New path base))) as [Hc Ha].
  rewrite Hc, Ha, String_loop_map.
  transitivity (String.concat " "
                  (map (String_arg quote) (path :: (base ++ List.concat appended))));
    [reflexivity|].
  now rewrite String_arg_plain.
Qed.

Lemma String_plain_arguments_witness :
  Forall plain ("ls"%string :: (["-l"%string] ++ List.concat [["-a"%string]; ["/tmp"%string]])) /\
  process_String (fun s => s)
    (fold_left Real.AppendArgs [["-a"%string]; ["/tmp"%string]] (Real.Process Examples.ls))
  = "ls -l -a /tmp"%string.
Proof.
  assert (H : Forall plain ("ls"%string :: (["-l"%string]
                ++ List.concat [["-a"%string]; ["/tmp"%string]])))
    by (repeat constructor).
  split; [exact H|].
  exact (String_plain_arguments (fun s => s) "ls" ["-l"%string]
           [["-a"%string]; ["/tmp"%string]] H).
Defined.

(** X6. [Start] does not clear the appended arguments: after [Start],
    whatever it returned, [String] lists them twice, once from [cmd.Args]
    and once from [proc.args]. *)
Theorem String_after_Start
    (quote : string -> string) (os : OS) (proc : Real.process) :
  process_String quote (fst (fst (Real.Start os proc)))
  = String.concat " "
      (map (String_arg quote)
           (Args (Real.cmd proc) ++ Real.args proc ++ Real.args proc)).
Proof.
  unfold process_String.
  destruct (Start_keeps os proc) as (Ha & _ & _).
  rewrite Start_cmd_Args, Ha, String_loop_map, <- app_assoc. reflexivity.
Qed.

(** X7. [Start] does not guard against a second call: a second [Start]
    appends the appended arguments again, so its argument vector, and the
    one any spawn of it is called with, holds them twice. *)
Theorem Start_twice_appends_twice (os1 os2 : OS) (proc : Real.process) :
  let again := Real.Start os2 (fst (fst (Real.Start os1 proc))) in
  let argv := (Args (Real.cmd proc) ++ Real.args proc ++ Real.args proc)%list in
  Args (Real.cmd (fst (fst again))) = argv /\
  Forall (fun ef => match ef with
                    | Spawn a => a = argv
                    | GoCopy _ _ => True
                    end) (snd (fst again)).
Proof.
  intros again argv. unfold again, argv.
  destruct (Start_keeps os1 proc) as (Ha & _ & _).
  pose proof (Start_Spawn_argv os2 (fst (fst (Real.Start os1 proc)))) as Hs.
  rewrite Start_cmd_Args, Ha, <- app_assoc in Hs.
  rewrite !Start_cmd_Args, Ha, <- app_assoc.
  split; [reflexivity | exact Hs].
Qed.

Lemma SetPath_fold (ps : list string) :
  forall c : Real.command,
    Real.path (fold_left Real.SetPath ps c) = last ps (Real.path c) /\
    Real.base_args (fold_left Real.SetPath ps c) = Real.base_args c.
Proof.
  assert (Hlast : forall (l : list string) (a d d' : string),
             last (a :: l) d = last (a :: l) d').
  { induction l as [|b l IHl]; intros a d d'; [reflexivity|].
    change (last (b :: l) d = last (b :: l) d'). apply IHl. }
  induction ps as [|p ps IH]; intros c; simpl fold_left; [split; reflexivity|].
  destruct (IH (Real.SetPath c p)) as [Hp Hb]. rewrite Hp, Hb.
  split; [|reflexivity]. destruct ps as [|q ps]; [reflexivity|].
  change (last (p :: q :: ps) (Real.path c)) with (last (q :: ps) (Real.path c)).
  apply Hlast.
Qed.

(** X8. Only the last [SetPath] counts, and no [SetPath] touches the base
    arguments: a process made after any sequence of [SetPath] calls is
    started with the last path set (the original one if none was) as
    argv[0], followed by the base arguments given to [New] and the appended
    ones. *)
Theorem SetPath_last_wins
    (os : OS) (path : string) (base : list string) (paths : list string)
    (appended : list (list string)) :
  let c := fold_left Real.SetPath paths (Real.New path base) in
  let proc := fold_left Real.AppendArgs appended (Real.Process c) in
  Real.path c = last paths path /\
  Args (Real.cmd (fst (fst (Real.Start os proc))))
  = last paths path :: (base ++ List.concat appended).
Proof.
  intros c proc.
  destruct (SetPath_fold paths (Real.New path base)) as [Hp Hb]. fold c in Hp, Hb.
  split; [exact Hp|].
  destruct (AppendArgs_fold appended (Real.Process c)) as [Hc Ha]. fold proc in Hc, Ha.
  rewrite Start_cmd_Args, Hc, Ha. simpl. now rewrite Hp, Hb.
Qed.

Lemma Real_fold_Stdout (outs : list Writer) :
  forall proc : Real.process,
    fold_left Real.Stdout outs proc =
    Real.mkProcess (Real.cmd proc) (Real.stderr proc)
      (mkMultiWriter (writers (Real.stdout proc) ++ outs)) (Real.args proc).
Proof.
  induction outs as [|w outs IH]; intros proc; simpl.
  - rewrite app_nil_r. destruct proc as [? ? [?] ?]. reflexivity.
  - rewrite IH. simpl. now rewrite <- app_assoc.
Qed.

Lemma Real_fold_Stderr (errs : list Writer) :
  forall proc : Real.process,
    fold_left Real.Stderr errs proc =
    Real.mkProcess (Real.cmd proc)
      (mkMultiWriter (writers (Real.stderr proc) ++ errs))
      (Real.stdout proc) (Real.args proc).
Proof.
  induction errs as [|w errs IH]; intros proc; simpl.
  - rewrite app_nil_r. destruct proc as [? [?] ? ?]. reflexivity.
  - rewrite IH. simpl. now rewrite <- app_assoc.
Qed.

(** X9. Registering sinks on a real process: the sinks of each stream are
    kept in the order of the calls, after those already there; [Stdout]
    does not touch the error stream nor [Stderr] the output stream, neither
    touches the arguments, and [Start] itself, whatever it returns, calls
    no sink and leaves both lists as they are. *)
Theorem Real_registration
    (os : OS) (proc : Real.process) (outs errs : list Writer) :
  let registered := fold_left Real.Stderr errs (fold_left Real.Stdout outs proc) in
  let started := fst (fst (Real.Start os registered)) in
  writers (Real.stdout started) = (writers (Real.stdout proc) ++ outs)%list /\
  writers (Real.stderr started) = (writers (Real.stderr proc) ++ errs)%list /\
  Args (Real.cmd started) = (Args (Real.cmd proc) ++ Real.args proc)%list.
Proof.
  intros registered started. unfold started.
  destruct (Start_keeps os registered) as (_ & Hout & Herr).
  rewrite Hout, Herr, Start_cmd_Args. unfold registered.
  rewrite Real_fold_Stderr, Real_fold_Stdout. simpl. repeat split.
Qed.

(** * Further properties of the test double *)

Lemma task_step_effect (s : stream) (at_ at' : Double.pc)
    (p p' : Double.testProcess) :
  Double.task_step s at_ p = Some (p', at') ->
  at_ <> Double.Finished /\ at' = next at_ /\
  Double.wg p' = Double.wg p - (pending at_ - pending at') /\
  Double.stdout p' = Double.stdout p /\ Double.stderr p' = Double.stderr p /\
  Double.startErr p' = Double.startErr p /\ Double.waitErr p' = Double.waitErr p /\
  Double.killErr p' = Double.killErr p.
Proof.
  destruct at_; simpl; intros H.
  - destruct (0 <? len (Double.data s p)); inversion H; subst;
      destruct s; simpl; repeat split; (discriminate || lia).
  - inversion H; subst. destruct s; simpl; repeat split; (discriminate || lia).
  - inversion H; subst. simpl. repeat split; (discriminate || lia).
  - discriminate.
Qed.

Lemma task_step_total (s : stream) (at_ : Double.pc) (p : Double.testProcess) :
  at_ <> Double.Finished ->
  exists p', Double.task_step s at_ p = Some (p', next at_).
Proof.
  destruct at_; simpl; intros H; try (eexists; reflexivity).
  - destruct (0 <? len (Double.data s p)); eexists; reflexivity.
  - contradiction.
Qed.

Lemma unfinished_cons (s : stream) (at_ : Double.pc) (ts : list (stream * Double.pc)) :
  unfinished ((s, at_) :: ts) = pending at_ + unfinished ts.
Proof. destruct at_; reflexivity. Qed.

Lemma unfinished_app (ts ts' : list (stream * Double.pc)) :
  unfinished (ts ++ ts') = unfinished ts + unfinished ts'.
Proof.
  induction ts as [|[s at_] ts IH]; [reflexivity|].
  change (((s, at_) :: ts) ++ ts') with ((s, at_) :: (ts ++ ts')).
  rewrite !unfinished_cons, IH. lia.
Qed.

Lemma unfinished_set_nth (ts : list (stream * Double.pc)) :
  forall (i : nat) (s : stream) (at_ at' : Double.pc),
    nth_error ts i = Some (s, at_) ->
    unfinished (Double.set_nth i (s, at') ts)
    = unfinished ts - (pending at_ - pending at').
Proof.
  induction ts as [|[s0 a0] ts IH]; intros [|i] s at_ at' H; simpl in H;
    try discriminate.
  - inversion H; subst. simpl Double.set_nth. rewrite !unfinished_cons. lia.
  - simpl Double.set_nth. rewrite !unfinished_cons. rewrite (IH i s at_ at' H). lia.
Qed.

Lemma unfinished_nonneg (ts : list (stream * Double.pc)) : 0 <= unfinished ts.
Proof.
  induction ts as [|[s at_] ts IH]; [simpl; lia|].
  rewrite unfinished_cons. destruct at_; cbn [pending]; lia.
Qed.

Lemma unfinished_zero (ts : list (stream * Double.pc)) :
  unfinished ts = 0 <-> Forall (fun t => snd t = Double.Finished) ts.
Proof.
  induction ts as [|[s at_] ts IH].
  - split; [constructor | reflexivity].
  - rewrite unfinished_cons. pose proof (unfinished_nonneg ts) as Hpos. split.
    + intros H. constructor.
      * destruct at_; cbn [pending] in H; (reflexivity || lia).
      * apply IH. destruct at_; cbn [pending] in H; lia.
    + intros H. inversion H as [|? ? Hat Hts]; subst. cbn [snd] in Hat. subst at_.
      apply IH in Hts. cbn [pending]. lia.
Qed.

(** What no move changes: the configured data and errors. What every
    move keeps: the counter of the wait group is the number of goroutines
    that have not called [Done]. *)
Lemma move_keeps (w w' : Double.world) :
  move w w' ->
  (Double.stdout (Double.tp w') = Double.stdout (Double.tp w) /\
   Double.stderr (Double.tp w') = Double.stderr (Double.tp w) /\
   Double.startErr (Double.tp w') = Double.startErr (Double.tp w) /\
   Double.waitErr (Double.tp w') = Double.waitErr (Double.tp w) /\
   Double.killErr (Double.tp w') = Double.killErr (Double.tp w)) /\
  (Double.wg (Double.tp w) = unfinished (Double.tasks w) ->
   Double.wg (Double.tp w') = unfinished (Double.tasks w')).
Proof.
  intros [[i Hstep] | ->].
  - unfold Double.sched in Hstep.
    destruct (nth_error (Double.tasks w) i) as [[s at_]|] eqn:Hnth; [|discriminate].
    destruct (Double.task_step s at_ (Double.tp w)) as [[p' at']|] eqn:Htask;
      [|discriminate].
    inversion Hstep; subst w'. simpl.
    destruct (task_step_effect _ _ _ _ _ Htask)
      as (_ & _ & Hwg & Ho & He & Hs & Hw & Hk).
    split; [repeat split; assumption|].
    intros Hinv. rewrite (unfinished_set_nth _ _ _ _ at' Hnth). lia.
  - unfold Double.Start. destruct (Double.startErr (Double.tp w)) eqn:Hs; simpl.
    + split; [repeat split; assumption | auto].
    + split; [repeat split; assumption|].
      intros Hinv. rewrite unfinished_app.
      change (unfinished [(OutStream, Double.AtWrite); (ErrStream, Double.AtWrite)])
        with 2.
      lia.
Qed.

Lemma evolves_keeps (w w' : Double.world) :
  evolves w w' ->
  Double.wg (Double.tp w) = unfinished (Double.tasks w) ->
  Double.wg (Double.tp w') = unfinished (Double.tasks w') /\
  Double.stdout (Double.tp w') = Double.stdout (Double.tp w) /\
  Double.stderr (Double.tp w') = Double.stderr (Double.tp w) /\
  Double.startErr (Double.tp w') = Double.startErr (Double.tp w) /\
  Double.waitErr (Double.tp w') = Double.waitErr (Double.tp w) /\
  Double.killErr (Double.tp w') = Double.killErr (Double.tp w).
Proof.
  induction 1 as [w|w w1 w2 Hmove _ IH]; intros Hinv; [repeat split; assumption|].
  destruct (move_keeps _ _ Hmove) as [(Ho & He & Hs & Hw & Hk) Hwg].
  destruct (IH (Hwg Hinv)) as (Hwg2 & Ho2 & He2 & Hs2 & Hw2 & Hk2).
  repeat split; congruence.
Qed.

Lemma steps_evolves (w w' : Double.world) : Double.steps w w' -> evolves w w'.
Proof.
  induction 1 as [w|w w1 w2 Hstep _ IH]; [apply rt1n_refl|].
  eapply Relation_Operators.rt1n_trans; [left; exact Hstep | exact IH].
Qed.

Lemma evolves_trans (w1 w2 w3 : Double.world) :
  evolves w1 w2 -> evolves w2 w3 -> evolves w1 w3.
Proof.
  induction 1 as [w|w wa wb Hmove _ IH]; intros H3; [exact H3|].
  eapply Relation_Operators.rt1n_trans; [exact Hmove | exact (IH H3)].
Qed.

Lemma run_steps (schedule : list nat) :
  forall w w' : Double.world,
    Double.run schedule w = Some w' -> Double.steps w w'.
Proof.
  induction schedule as [|i rest IH]; intros w w' H; simpl in H.
  - inversion H. apply rt1n_refl.
  - destruct (Double.sched i w) as [w1|] eqn:Hs; [|discriminate].
    eapply Relation_Operators.rt1n_trans; [exists i; exact Hs | exact (IH _ _ H)].
Qed.

(** X10. The wait group counts the goroutines. In every world a test
    process can get into, however often [Start] is called and however the
    goroutines are interleaved, whatever the sinks do: the counter is the
    number of goroutines that have not finished, so it is never negative,
    and [Wait] returns exactly when every goroutine launched so far has
    finished. *)
Theorem WaitGroup_counts_goroutines
    (tc : TestCmd.t) (outs errs : list Writer) (w : Double.world) :
  evolves (Double.idle (register_all outs errs (Double.Process tc))) w ->
  Double.wg (Double.tp w) = unfinished (Double.tasks w) /\
  0 <= Double.wg (Double.tp w) /\
  (Double.Wait w <> None <-> Double.all_finished w).
Proof.
  intros Hev. apply evolves_keeps in Hev;
    [|rewrite register_all_Process; reflexivity].
  destruct Hev as (Hwg & _). split; [exact Hwg|]. split.
  - rewrite Hwg. apply unfinished_nonneg.
  - unfold Double.Wait, Double.all_finished. rewrite <- unfinished_zero, <- Hwg.
    destruct (Z.eqb_spec (Double.wg (Double.tp w)) 0) as [H0|H0]; split; intros H;
      congruence.
Qed.

Lemma WaitGroup_counts_goroutines_witness :
  let tc := TestCmd.mk Examples.hello Examples.world None None None in
  let p := register_all [TestWriters.errWriter] [TestWriters.closeWriter]
                        (Double.Process tc) in
  let w := fst (Double.Start (fst (Double.Start (Double.idle p)))) in
  evolves (Double.idle p) w /\
  Double.wg (Double.tp w) = 4 /\
  (Double.Wait w <> None <-> Double.all_finished w).
Proof.
  intros tc p w.
  assert (Hev : evolves (Double.idle p) w).
  { eapply Relation_Operators.rt1n_trans; [right; reflexivity|].
    eapply Relation_Operators.rt1n_trans; [right; reflexivity|]. apply rt1n_refl. }
  split; [exact Hev|].
  destruct (WaitGroup_counts_goroutines tc [TestWriters.errWriter]
              [TestWriters.closeWriter] w Hev) as (Hwg & _ & Hwait).
  split; [rewrite Hwg; reflexivity | exact Hwait].
Defined.

Lemma remaining_zero (ts : list (stream * Double.pc)) :
  remaining ts = O -> unfinished ts = 0.
Proof.
  induction ts as [|[s at_] ts IH]; [reflexivity|].
  rewrite unfinished_cons. simpl remaining. intros H.
  destruct at_; simpl in H; try discriminate. rewrite (IH H). reflexivity.
Qed.

Lemma can_step (ts : list (stream * Double.pc)) :
  forall n : nat,
    remaining ts = S n ->
    exists i s at_,
      nth_error ts i = Some (s, at_) /\ at_ <> Double.Finished /\
      remaining (Double.set_nth i (s, next at_) ts) = n.
Proof.
  induction ts as [|[s at_] ts IH]; intros n H; [discriminate|].
  destruct at_.
  - exists 0%nat, s, Double.AtWrite. simpl in *.
    repeat split; [discriminate | lia].
  - exists 0%nat, s, Double.AtClose. simpl in *.
    repeat split; [discriminate | lia].
  - exists 0%nat, s, Double.AtDone. simpl in *.
    repeat split; [discriminate | lia].
  - simpl in H. destruct (IH n H) as (i & s' & at' & Hnth & Hne & Hrem).
    exists (S i), s', at'. simpl. repeat split; assumption.
Qed.

(** Whatever the sinks do, the goroutines can run to their end. *)
Lemma goroutines_finish (n : nat) :
  forall w : Double.world,
    remaining (Double.tasks w) = n ->
    exists w', Double.steps w w' /\ remaining (Double.tasks w') = O.
Proof.
  induction n as [|n IH]; intros w Hn.
  - exists w. split; [apply rt1n_refl | exact Hn].
  - destruct (can_step _ _ Hn) as (i & s & at_ & Hnth & Hne & Hrem).
    destruct (task_step_total s at_ (Double.tp w) Hne) as [p' Hp'].
    set (w1 := Double.mkWorld p' (Double.set_nth i (s, next at_) (Double.tasks w))).
    assert (Hstep : Double.step w w1).
    { exists i. unfold Double.sched. rewrite Hnth, Hp'. reflexivity. }
    destruct (IH w1 Hrem) as (w' & Hsteps & Hdone).
    exists w'. split; [|exact Hdone].
    eapply Relation_Operators.rt1n_trans; [exact Hstep | exact Hsteps].
Qed.

(** X11. [Wait] can always return. From every world a test process can
    get into, whatever its sinks return and however often [Start] was
    called, the goroutines can run on to a world in which [Wait] returns
    the configured wait error: a failing or short-writing sink never leaves
    the caller of [Wait] blocked. *)
Theorem Wait_can_always_return
    (tc : TestCmd.t) (outs errs : list Writer) (w : Double.world) :
  evolves (Double.idle (register_all outs errs (Double.Process tc))) w ->
  exists w', Double.steps w w' /\ Double.Wait w' = Some (TestCmd.WaitErr tc).
Proof.
  intros Hev.
  destruct (goroutines_finish _ w eq_refl) as (w' & Hsteps & Hdone).
  exists w'. split; [exact Hsteps|].
  pose proof (evolves_trans _ _ _ Hev (steps_evolves _ _ Hsteps)) as Hev'.
  apply evolves_keeps in Hev'; [|rewrite register_all_Process; reflexivity].
  destruct Hev' as (Hwg & _ & _ & _ & Hwait & _).
  unfold Double.Wait. rewrite Hwg, (remaining_zero _ Hdone), Hwait.
  rewrite register_all_Process. reflexivity.
Qed.

Lemma Wait_can_always_return_witness :
  let tc := TestCmd.mk Examples.hello Examples.world None (Some EOF) None in
  let p := register_all [TestWriters.errWriter; TestWriters.NewBuffer]
                        [TestWriters.shortWriter; TestWriters.closeWriter]
                        (Double.Process tc) in
  let w := fst (Double.Start (Double.idle p)) in
  evolves (Double.idle p) w /\
  Double.Wait w = None /\
  exists w', Double.steps w w' /\ Double.Wait w' = Some (Some EOF).
Proof.
  intros tc p w.
  assert (Hev : evolves (Double.idle p) w).
  { eapply Relation_Operators.rt1n_trans; [right; reflexivity | apply rt1n_refl]. }
  split; [exact Hev|]. split; [reflexivity|].
  exact (Wait_can_always_return tc [TestWriters.errWriter; TestWriters.NewBuffer]
           [TestWriters.shortWriter; TestWriters.closeWriter] w Hev).
Defined.

(** X12. The configuration of a test process is fixed when it is made. In
    every world it can get into, [Kill] returns the configured kill error,
    a further [Start] returns the configured start error, and the bytes to
    replay are the configured ones: neither [Start] nor the goroutines nor
    any sink changes them, and [Kill] does not depend on whether the
    process was started or has finished. *)
Theorem double_configuration_is_fixed
    (tc : TestCmd.t) (outs errs : list Writer) (w : Double.world) :
  evolves (Double.idle (register_all outs errs (Double.Process tc))) w ->
  Double.Kill (Double.tp w) = TestCmd.KillErr tc /\
  snd (Double.Start w) = TestCmd.StartErr tc /\
  Double.stdout (Double.tp w) = TestCmd.Stdout tc /\
  Double.stderr (Double.tp w) = TestCmd.Stderr tc.
Proof.
  intros Hev. apply evolves_keeps in Hev;
    [|rewrite register_all_Process; reflexivity].
  destruct Hev as (_ & Ho & He & Hs & _ & Hk).
  rewrite register_all_Process in Ho, He, Hs, Hk. simpl in Ho, He, Hs, Hk.
  unfold Double.Kill. repeat split; try assumption.
  unfold Double.Start. destruct (Double.startErr (Double.tp w)) eqn:H; simpl; congruence.
Qed.

Lemma double_configuration_is_fixed_witness :
  let tc := TestCmd.mk Examples.hello Examples.world None None (Some EOF) in
  let p := register_all [TestWriters.NewBuffer] [] (Double.Process tc) in
  exists w,
    Double.run [0; 1; 0]%nat (fst (Double.Start (Double.idle p))) = Some w /\
    evolves (Double.idle p) w /\
    Double.Kill (Double.tp w) = Some EOF.
Proof.
  intros tc p. eexists. split; [reflexivity|].
  match goal with |- evolves _ ?w /\ _ =>
    assert (Hev : evolves (Double.idle p) w)
  end.
  { eapply Relation_Operators.rt1n_trans; [right; reflexivity|].
    apply steps_evolves. apply (run_steps [0; 1; 0]%nat). reflexivity. }
  split; [exact Hev|].
  exact (proj1 (double_configuration_is_fixed tc [TestWriters.NewBuffer] [] _ Hev)).
Defined.

Lemma sched_out_of (p : Double.testProcess) (a b : Double.pc) :
  Double.sched 0 (world_of p a b) =
  match a with
  | Double.Finished => None
  | _ => Some (world_of p (next a) b)
  end.
Proof.
  unfold world_of, Double.sched, writer_at.
  destruct a, b; simpl; try reflexivity;
    destruct (0 <? len (Double.stdout p)); reflexivity.
Qed.

Lemma sched_err_of (p : Double.testProcess) (a b : Double.pc) :
  Double.sched 1 (world_of p a b) =
  match b with
  | Double.Finished => None
  | _ => Some (world_of p a (next b))
  end.
Proof.
  unfold world_of, Double.sched, writer_at.
  destruct a, b; simpl; try reflexivity;
    destruct (0 <? len (Double.stderr p)); reflexivity.
Qed.

Lemma steps_world_of (p : Double.testProcess) (a b : Double.pc) (w : Double.world) :
  Double.steps (world_of p a b) w -> exists a' b', w = world_of p a' b'.
Proof.
  intros Hsteps. remember (world_of p a b) as w0 eqn:Hw0. revert a b Hw0.
  induction Hsteps as [w0|w0 w1 w2 [i Hstep] _ IH]; intros a b ->.
  - now exists a, b.
  - destruct i as [|[|i]].
    + rewrite sched_out_of in Hstep.
      destruct a; inversion Hstep; subst; eapply IH; reflexivity.
    + rewrite sched_err_of in Hstep.
      destruct b; inversion Hstep; subst; eapply IH; reflexivity.
    + unfold Double.sched in Hstep. simpl in Hstep. destruct i; discriminate.
Qed.

(** X13. The outcome does not depend on the interleaving, whatever the
    sinks are. A double with no start error is started once; whenever
    [Wait] returns, it returns the configured wait error, both goroutines
    have finished, and the broadcaster of each stream is exactly as one
    [Write] of the configured bytes (no [Write] at all when there are none)
    followed by one [Close] leaves it, with the errors of both calls
    dropped. *)
Theorem double_outcome_any_sinks
    (tc : TestCmd.t) (outs errs : list Writer) (w : Double.world)
    (r : option error) :
  TestCmd.StartErr tc = None ->
  Double.steps
    (fst (Double.Start (Double.idle (register_all outs errs (Double.Process tc))))) w ->
  Double.Wait w = Some r ->
  r = TestCmd.WaitErr tc /\
  Double.all_finished w /\
  Double.stdoutWriter (Double.tp w)
  = fst (Close (if 0 <? len (TestCmd.Stdout tc)
                then fst (Write (mkMultiWriter outs) (TestCmd.Stdout tc))
                else mkMultiWriter outs)) /\
  Double.stderrWriter (Double.tp w)
  = fst (Close (if 0 <? len (TestCmd.Stderr tc)
                then fst (Write (mkMultiWriter errs) (TestCmd.Stderr tc))
                else mkMultiWriter errs)).
Proof.
  intros Hstart Hsteps Hwait.
  set (p := register_all outs errs (Double.Process tc)) in *.
  assert (Hp : p = Double.mkTestProcess None (TestCmd.Stdout tc) (mkMultiWriter outs)
                     (TestCmd.Stderr tc) (mkMultiWriter errs) 0
                     None (TestCmd.WaitErr tc) (TestCmd.KillErr tc)).
  { unfold p. rewrite register_all_Process, Hstart. reflexivity. }
  assert (Hw1 : fst (Double.Start (Double.idle p))
                = world_of p Double.AtWrite Double.AtWrite).
  { rewrite Hp. reflexivity. }
  rewrite Hw1 in Hsteps.
  destruct (steps_world_of _ _ _ _ Hsteps) as (a & b & ->).
  unfold Double.Wait, world_of in Hwait. simpl in Hwait.
  destruct a, b; simpl in Hwait; try discriminate.
  inversion Hwait; subst r.
  rewrite Hp. simpl. split; [reflexivity|]. split; [repeat constructor|].
  split; reflexivity.
Qed.

Lemma double_outcome_any_sinks_witness :
  let tc := TestCmd.mk Examples.hello [] None (Some EOF) None in
  let outs := [TestWriters.NewBuffer; TestWriters.errWriter; TestWriters.NewBuffer] in
  let errs := [TestWriters.closeWriter] in
  let w1 := fst (Double.Start (Double.idle (register_all outs errs (Double.Process tc)))) in
  exists w,
    Double.run [1; 0; 0; 1; 1; 0]%nat w1 = Some w /\
    TestCmd.StartErr tc = None /\
    Double.steps w1 w /\
    Double.Wait w = Some (Some EOF) /\
    map (fun s => written (calls s)) (writers (Double.stdoutWriter (Double.tp w)))
    = [[Examples.hello]; [Examples.hello]; []] /\
    map (fun s => calls s) (writers (Double.stderrWriter (Double.tp w)))
    = [[CClose]].
Proof.
  intros tc outs errs w1. eexists. split; [reflexivity|].
  match goal with |- _ /\ Double.steps _ ?w /\ _ =>
    assert (Hsteps : Double.steps w1 w)
      by (apply (run_steps [1; 0; 0; 1; 1; 0]%nat); reflexivity);
    assert (Hwait : Double.Wait w = Some (Some EOF)) by reflexivity
  end.
  assert (Hstart : TestCmd.StartErr tc = None) by reflexivity.
  split; [exact Hstart|]. split; [exact Hsteps|]. split; [exact Hwait|].
  destruct (double_outcome_any_sinks tc outs errs _ (Some EOF) Hstart Hsteps Hwait)
    as (_ & _ & Hout & Herr).
  rewrite Hout, Herr. split; reflexivity.
Defined.

Lemma close_loop_same_written (ws : list Writer) :
  Forall2 same_written ws (fst (close_loop ws)).
Proof.
  assert (Hrefl : forall l, Forall2 same_written l l)
    by (induction l; constructor; [reflexivity | assumption]).
  assert (Hw : forall cs, written (cs ++ [CClose]) = written cs).
  { induction cs as [|[q|] cs IH]; simpl; auto. now rewrite IH. }
  induction ws as [|w ws IH]; simpl; [constructor|].
  destruct (on_close w) as [closer|].
  - destruct (closer (calls w)); simpl.
    + constructor; [apply Hw | apply Hrefl].
    + destruct (close_loop ws) as [ws' r]. simpl in *.
      constructor; [apply Hw | exact IH].
  - destruct (close_loop ws) as [ws' r]. simpl in *.
    constructor; [reflexivity | exact IH].
Qed.

Lemma same_written_trans (l1 l2 l3 : list Writer) :
  Forall2 same_written l1 l2 -> Forall2 same_written l2 l3 ->
  Forall2 same_written l1 l3.
Proof.
  intros H12. revert l3.
  induction H12 as [|a b l1 l2 Hab _ IH]; intros l3 H23;
    inversion H23; subst; constructor; auto.
  unfold same_written in *. congruence.
Qed.

Lemma same_written_refl (l : list Writer) : Forall2 same_written l l.
Proof. induction l; constructor; [reflexivity | assumption]. Qed.

(** A move of a process with no bytes to replay on stream [s] hands no
    payload to the sinks of [s]. *)
Lemma move_same_written (s : stream) (w w' : Double.world) :
  Double.data s (Double.tp w) = [] ->
  move w w' ->
  Double.data s (Double.tp w') = [] /\
  Forall2 same_written (writers (Double.writer s (Double.tp w)))
          (writers (Double.writer s (Double.tp w'))).
Proof.
  intros Hdata [[i Hstep] | ->].
  - unfold Double.sched in Hstep.
    destruct (nth_error (Double.tasks w) i) as [[s0 at_]|]; [|discriminate].
    destruct (Double.task_step s0 at_ (Double.tp w)) as [[p' at']|] eqn:Htask;
      [|discriminate].
    inversion Hstep; subst w'. simpl Double.tp.
    destruct (task_step_effect _ _ _ _ _ Htask) as (_ & _ & _ & Ho & He & _).
    split; [destruct s; simpl in *; congruence|].
    destruct at_; simpl in Htask.
    + destruct s, s0; simpl in *; try rewrite Hdata in Htask; simpl in Htask;
        try (inversion Htask; subst; simpl; apply same_written_refl);
        destruct (0 <? len _); inversion Htask; subst; simpl;
          apply same_written_refl.
    + inversion Htask; subst. destruct s, s0; simpl;
        try apply same_written_refl; unfold Close, close;
        match goal with |- context [close_loop ?l] =>
          pose proof (close_loop_same_written l) as H;
          destruct (close_loop l); exact H
        end.
    + inversion Htask; subst. destruct s; simpl; apply same_written_refl.
    + discriminate.
  - unfold Double.Start. destruct (Double.startErr (Double.tp w)); simpl.
    + split; [exact Hdata | apply same_written_refl].
    + split; [destruct s; exact Hdata | destruct s; apply same_written_refl].
Qed.

(** X14. Nothing to replay, nothing written. When the configured bytes
    of a stream are empty, no sink of that stream is ever handed a payload,
    in any world the process can get into and whatever the sinks are: the
    goroutine skips [Write] and only closes the sinks that can be closed. *)
Theorem double_empty_stream_never_writes
    (s : stream) (tc : TestCmd.t) (outs errs : list Writer) (w : Double.world) :
  let p := register_all outs errs (Double.Process tc) in
  Double.data s p = [] ->
  evolves (Double.idle p) w ->
  Forall2 same_written (writers (Double.writer s p))
          (writers (Double.writer s (Double.tp w))).
Proof.
  intros p Hdata Hev.
  change p with (Double.tp (Double.idle p)) in Hdata at 1.
  change (Double.writer s p) with (Double.writer s (Double.tp (Double.idle p))).
  induction Hev as [w0|w0 w1 w2 Hmove _ IH]; [apply same_written_refl|].
  destruct (move_same_written s _ _ Hdata Hmove) as [Hdata1 Hsame].
  eapply same_written_trans; [exact Hsame | exact (IH Hdata1)].
Qed.

Lemma double_empty_stream_never_writes_witness :
  let tc := TestCmd.mk [] Examples.world None None None in
  let outs := [TestWriters.closeWriter; TestWriters.NewBuffer] in
  let p := register_all outs [TestWriters.NewBuffer] (Double.Process tc) in
  exists w,
    Double.run [0; 0; 1; 0]%nat (fst (Double.Start (Double.idle p))) = Some w /\
    Double.data OutStream p = [] /\
    evolves (Double.idle p) w /\
    map (fun x => calls x) (writers (Double.stdoutWriter (Double.tp w)))
    = [[CClose]; []] /\
    Forall2 same_written (writers (Double.writer OutStream p))
            (writers (Double.writer OutStream (Double.tp w))).
Proof.
  intros tc outs p. eexists. split; [reflexivity|].
  assert (Hdata : Double.data OutStream p = []) by reflexivity.
  match goal with |- _ /\ evolves _ ?w /\ _ =>
    assert (Hev : evolves (Double.idle p) w)
  end.
  { eapply Relation_Operators.rt1n_trans; [right; reflexivity|].
    apply steps_evolves. apply (run_steps [0; 0; 1; 0]%nat). reflexivity. }
  split; [exact Hdata|]. split; [exact Hev|]. split; [reflexivity|].
  exact (double_empty_stream_never_writes OutStream tc outs [TestWriters.NewBuffer]
           _ Hdata Hev).
Defined.
